(** * rq-scheduler: the scheduler class of [rq_scheduler/scheduler.py]

    A shallow embedding of [Scheduler] over a model of its collaborators:
    the Redis connection (the sorted set of scheduled jobs, the job hashes
    and the queues of rq, the scheduler's liveness hash and its lock key),
    the wall clock, other clients of the same store, and the helper module
    [rq_scheduler.utils].

    Python exceptions are results of an error-and-state monad: a command
    that raises leaves the writes made before it in the store, as Redis
    does.  Logging and signal handlers are left out.

    The first part gives the definitions: the values, the sorted set, the
    records, the monad, the methods, a concrete environment to run them
    on, and the notions the statements are written with.  The second part
    proves the facts, method by method, and ends with runs on the concrete
    environment. *)

From Stdlib Require Import ZArith QArith Qminmax String List Lia.
From stdpp Require Import gmap strings list sorting.

Local Open Scope string_scope.
Local Open Scope Z_scope.

(** ** Python values used by the scheduler *)

(** Exceptions the modelled code raises or lets through. *)
Inductive py_exn : Type :=
| ValueError (msg : string)
| RedisError (msg : string)
| NoSuchJobError
| WatchError
| EnqueueError.

(** [if x:] on an [int] read with [dict.get(key, None)]. *)
Definition truthy_int (x : option Z) : bool :=
  match x with
  | Some n => negb (n =? 0)
  | None => false
  end.

(** [if s:] on a [str] read with [dict.get(key, None)]. *)
Definition truthy_str (x : option string) : bool :=
  match x with
  | Some s => negb (String.eqb s "")
  | None => false
  end.

(** [int(x)] on a number: truncation towards zero. *)
Definition py_int (x : Q) : Z := Z.quot (Qnum x) (Zpos (Qden x)).

(** ** The Redis sorted set

    A sorted set is kept as the list of its [(member, score)] pairs in the
    order Redis serves them: ascending score, members of equal score in
    lexicographic order. *)

Module ZSet.

Definition entry : Type := string * Z.
Abbreviation t := (list entry).

Definition member (e : entry) : string := fst e.
Definition score (e : entry) : Z := snd e.
Arguments member !e /.
Arguments score !e /.

Definition entry_leb (a b : entry) : bool :=
  (score a <? score b) || ((score a =? score b) && String.leb (member a) (member b)).

Fixpoint place (e : entry) (s : t) : t :=
  match s with
  | [] => [e]
  | x :: s' => if entry_leb e x then e :: x :: s' else x :: place e s'
  end.

(** ZREM key member *)
Definition zrem (m : string) (s : t) : t :=
  filter (λ e, member e ≠ m) s.

(** ZADD key score member *)
Definition zadd (sc : Z) (m : string) (s : t) : t :=
  place (m, sc) (zrem m s).

(** ZSCORE key member *)
Fixpoint zscore (m : string) (s : t) : option Z :=
  match s with
  | [] => None
  | e :: s' => if decide (member e = m) then Some (score e) else zscore m s'
  end.

(** The upper end of a score range: a number or ["+inf"]. *)
Inductive bound : Type :=
| Finite (z : Z)
| PlusInf.

Definition below (b : bound) (z : Z) : Prop :=
  match b with
  | Finite u => z ≤ u
  | PlusInf => True
  end.

#[global] Instance below_dec b z : Decision (below b z).
Proof. destruct b; simpl; apply _. Defined.

Definition in_range (lo : Z) (hi : bound) (e : entry) : Prop :=
  lo ≤ score e ∧ below hi (score e).

#[global] Instance in_range_dec lo hi e : Decision (in_range lo hi e).
Proof. unfold in_range; apply _. Defined.

(** ZCOUNT key min max *)
Definition zcount (lo : Z) (hi : bound) (s : t) : Z :=
  Z.of_nat (length (filter (in_range lo hi) s)).

(** LIMIT offset count of ZRANGEBYSCORE: a negative offset gives nothing,
    a negative count gives everything from the offset on. *)
Definition limit (offset count : Z) (l : t) : t :=
  if offset <? 0 then []
  else
    let rest := drop (Z.to_nat offset) l in
    if count <? 0 then rest else take (Z.to_nat count) rest.

(** ZRANGEBYSCORE key min max [LIMIT start num], as redis-py's
    [zrangebyscore]: it refuses [start] without [num] and [num] without
    [start]. *)
Definition zrangebyscore (lo : Z) (hi : bound) (start num : option Z) (s : t)
  : py_exn + t :=
  match start, num with
  | Some o, Some n => inr (limit o n (filter (in_range lo hi) s))
  | None, None => inr (filter (in_range lo hi) s)
  | _, _ => inl (RedisError "``start`` and ``num`` must both be specified")
  end.

(** How many entries the set holds for a member. *)
Definition occurrences (m : string) (s : t) : nat :=
  length (filter (λ e, member e = m) s).

(** The shape Redis keeps: one entry per member, and the entries in
    ascending order. *)
Definition wf (s : t) : Prop := NoDup (member <$> s).

Definition entry_le (a b : entry) : Prop := entry_leb a b = true.

Definition sorted (s : t) : Prop := StronglySorted entry_le s.

End ZSet.

(** ** rq's job record

    [Job.create] builds a record in memory; [job.save()] writes it to the
    hash [rq:job:<id>]; [Job.fetch(id)] reads it back.  The scheduler only
    looks at [id], [origin] and three keys of [meta]; the remaining fields
    travel with the record. *)

Record Meta : Type := mkMeta {
  meta_interval : option Z;
  meta_repeat : option Z;
  meta_cron_string : option string
}.

Record Job : Type := mkJob {
  job_id : string;
  origin : string;
  func : string;
  args : list string;
  kwargs : list (string * string);
  result_ttl : option Z;
  ttl : option Z;
  timeout : option Z;
  description : option string;
  meta : Meta
}.

#[global] Instance Meta_eq_dec : EqDecision Meta.
Proof. solve_decision. Defined.

#[global] Instance Job_eq_dec : EqDecision Job.
Proof. solve_decision. Defined.

Definition set_meta (m : Meta) (j : Job) : Job :=
  mkJob (job_id j) (origin j) (func j) (args j) (kwargs j) (result_ttl j)
        (ttl j) (timeout j) (description j) m.

Definition set_id (i : string) (j : Job) : Job :=
  mkJob i (origin j) (func j) (args j) (kwargs j) (result_ttl j)
        (ttl j) (timeout j) (description j) (meta j).

Definition set_origin (o : string) (j : Job) : Job :=
  mkJob (job_id j) o (func j) (args j) (kwargs j) (result_ttl j)
        (ttl j) (timeout j) (description j) (meta j).

(** [job.meta['interval'] = v], [job.meta['repeat'] = v],
    [job.meta['cron_string'] = v] *)
Definition meta_set_interval (v : Z) (j : Job) : Job :=
  set_meta (mkMeta (Some v) (meta_repeat (meta j)) (meta_cron_string (meta j))) j.

Definition meta_set_repeat (v : Z) (j : Job) : Job :=
  set_meta (mkMeta (meta_interval (meta j)) (Some v) (meta_cron_string (meta j))) j.

Definition meta_set_cron_string (v : string) (j : Job) : Job :=
  set_meta (mkMeta (meta_interval (meta j)) (meta_repeat (meta j)) (Some v)) j.

(** ** The store and the process *)

(** The hash [rq:scheduler]: its fields ([birth], [death]) and the expiry
    last set on the key, if any. *)
Record Liveness : Type := mkLiveness {
  fields : gmap string Q;
  expiry : option Z
}.

Record Redis : Type := mkRedis {
  scheduled_jobs : ZSet.t;                 (* rq:scheduler:scheduled_jobs *)
  job_hashes : gmap string Job;            (* rq:job:<id> *)
  queues : gmap string (list string);      (* rq:queue:<name>, job ids *)
  scheduler_hash : option Liveness;        (* rq:scheduler *)
  scheduler_lock : option (Q * Z)          (* rq:scheduler_lock: value, ex *)
}.

(** What the process holds besides the connection: the scheduler's
    [_lock_acquired], and how often it has read the clock and drawn a
    fresh job id. *)
Record Process : Type := mkProcess {
  _lock_acquired : bool;
  clock_reads : nat;
  ids_drawn : nat
}.

Record World : Type := mkWorld {
  redis : Redis;
  process : Process
}.

Definition with_scheduled_jobs (f : ZSet.t → ZSet.t) (r : Redis) : Redis :=
  mkRedis (f (scheduled_jobs r)) (job_hashes r) (queues r)
          (scheduler_hash r) (scheduler_lock r).

Definition with_job_hashes (f : gmap string Job → gmap string Job) (r : Redis) : Redis :=
  mkRedis (scheduled_jobs r) (f (job_hashes r)) (queues r)
          (scheduler_hash r) (scheduler_lock r).

Definition with_queues (f : gmap string (list string) → gmap string (list string))
    (r : Redis) : Redis :=
  mkRedis (scheduled_jobs r) (job_hashes r) (f (queues r))
          (scheduler_hash r) (scheduler_lock r).

Definition with_scheduler_hash (f : option Liveness → option Liveness) (r : Redis) : Redis :=
  mkRedis (scheduled_jobs r) (job_hashes r) (queues r)
          (f (scheduler_hash r)) (scheduler_lock r).

Definition with_scheduler_lock (f : option (Q * Z) → option (Q * Z)) (r : Redis) : Redis :=
  mkRedis (scheduled_jobs r) (job_hashes r) (queues r)
          (scheduler_hash r) (f (scheduler_lock r)).

Definition with_redis (f : Redis → Redis) (w : World) : World :=
  mkWorld (f (redis w)) (process w).

Definition with_process (f : Process → Process) (w : World) : World :=
  mkWorld (redis w) (f (process w)).

(** ** The monad of the scheduler's methods *)

Inductive outcome (A : Type) : Type :=
| Returned (a : A)
| Raised (e : py_exn).
Arguments Returned {A} a.
Arguments Raised {A} e.

Definition M (A : Type) : Type := World → outcome A * World.

Definition ret {A} (a : A) : M A := λ w, (Returned a, w).

Definition raise {A} (e : py_exn) : M A := λ w, (Raised e, w).

Definition bind {A B} (c : M A) (k : A → M B) : M B :=
  λ w, match c w with
       | (Returned a, w') => k a w'
       | (Raised e, w') => (Raised e, w')
       end.

(** [try: c  except e: h] for the handler's exceptions *)
Definition try_except {A} (c : M A) (h : py_exn → option (M A)) : M A :=
  λ w, match c w with
       | (Returned a, w') => (Returned a, w')
       | (Raised e, w') =>
           match h e with
           | Some handler => handler w'
           | None => (Raised e, w')
           end
       end.

(** [try: c  finally: f] *)
Definition try_finally {A} (c : M A) (f : M unit) : M A :=
  λ w, match c w with
       | (r, w') =>
           match f w' with
           | (Returned _, w'') => (r, w'')
           | (Raised e, w'') => (Raised e, w'')
           end
       end.

Notation "'let*' x ':=' c 'in' k" := (bind c (λ x, k))
  (at level 10, x pattern, c at level 100, k at level 200).
Notation "c '>>' k" := (bind c (λ _, k))
  (at level 100, k at level 200, right associativity).

Definition read {A} (f : World → A) : M A := λ w, (Returned (f w), w).
Definition update (f : World → World) : M unit := λ w, (Returned tt, f w).

(** [for x in l: body(x)], collecting what the bodies return *)
Fixpoint for_each {A B} (body : A → M B) (l : list A) : M (list B) :=
  match l with
  | [] => ret []
  | x :: l' =>
      let* y := body x in
      let* ys := for_each body l' in
      ret (y :: ys)
  end.

(** ** The module [rq_scheduler.utils] and the environment

    [utils.py] is not among the sources: its four functions are the fields
    of a class, and every result below holds for any instance.
    [get_next_scheduled_time] consults the clock, so it takes the reading;
    a cron expression it cannot parse makes it raise. *)

Inductive until_arg (D T : Type) : Type :=
| UntilDatetime (d : D)
| UntilTimedelta (d : T)
| UntilEpoch (e : Z).
Arguments UntilDatetime {D T} d.
Arguments UntilTimedelta {D T} d.
Arguments UntilEpoch {D T} e.

Class Utils : Type := {
  datetime : Type;
  timedelta : Type;
  to_unix : datetime → Z;
  from_unix : Z → datetime;
  get_next_scheduled_time : string → datetime → py_exn + datetime;
  rationalize_until : option (until_arg datetime timedelta) → ZSet.bound
}.

(** Other clients of the same store write to the sorted set while a method
    of this scheduler runs. *)
Inductive client_cmd : Type :=
| OtherZadd (sc : Z) (m : string)
| OtherZrem (m : string).

Definition run_cmd (c : client_cmd) (s : ZSet.t) : ZSet.t :=
  match c with
  | OtherZadd sc m => ZSet.zadd sc m s
  | OtherZrem m => ZSet.zrem m s
  end.

Definition run_cmds (cs : list client_cmd) (s : ZSet.t) : ZSet.t :=
  foldl (λ acc c, run_cmd c acc) s cs.

(** Whether one of the commands, run in turn from [s], changes the set. *)
Fixpoint touched (cs : list client_cmd) (s : ZSet.t) : bool :=
  match cs with
  | [] => false
  | c :: cs' => bool_decide (run_cmd c s ≠ s) || touched cs' (run_cmd c s)
  end.

(** What the others do during one turn of the loop of
    [change_execution_time]: between its WATCH and its ZSCORE, between
    the ZSCORE and the ZADD, and between a [WatchError] and the ZSCORE of
    the handler. *)
Record round : Type := mkRound {
  after_watch : list client_cmd;
  after_check : list client_cmd;
  after_conflict : list client_cmd
}.

(** What the outside world decides: the readings of [datetime.utcnow()]
    and [time.time()] (by the number of earlier readings), the ids
    [Job.create] draws when none is given, for which jobs rq's
    [Queue.enqueue_job] raises, and when a write through a watching
    pipeline raises [WatchError], given the set as it was at the WATCH and
    the commands other clients have run since. *)
Class Env {U : Utils} : Type := {
  utcnow_at : nat → datetime;
  time_at : nat → Q;
  uuid4_at : nat → string;
  enqueue_fails : Job → bool;
  watch_error : ZSet.t → list client_cmd → bool
}.

(** What redis-py does with the pipeline of [change_execution_time]:
    after [watch] and without [multi()] each command is sent at once,
    and the method calls no [execute()], so its ZADD is never refused
    with [WatchError], whatever has happened to the watched key. *)
Definition writes_at_once {U : Utils} {E : Env} : Prop :=
  ∀ s cs, watch_error s cs = false.

(** The scheduler object: the attributes set by [__init__] that never
    change afterwards. *)
Record Scheduler : Type := mkScheduler {
  queue_name : string;
  _interval : Q
}.

Section Scheduler.

Context {U : Utils} {E : Env}.

(** *** Clock and fresh ids *)

Definition tick (p : Process) : Process :=
  mkProcess (_lock_acquired p) (S (clock_reads p)) (ids_drawn p).

Definition time_time : M Q :=
  λ w, (Returned (time_at (clock_reads (process w))), with_process tick w).

Definition utcnow : M datetime :=
  λ w, (Returned (utcnow_at (clock_reads (process w))), with_process tick w).

Definition uuid4 : M string :=
  λ w, (Returned (uuid4_at (ids_drawn (process w))),
        with_process (λ p, mkProcess (_lock_acquired p) (clock_reads p) (S (ids_drawn p))) w).

(** [time.sleep(seconds)]: Python refuses a negative length. *)
Definition time_sleep (seconds : Q) : M unit :=
  if Qlt_le_dec seconds 0
  then raise (ValueError "sleep length must be non-negative")
  else ret tt.

(** *** Commands of the connection, on the keys the scheduler uses *)

Definition connection_zadd (sc : Z) (m : string) : M unit :=
  update (with_redis (with_scheduled_jobs (ZSet.zadd sc m))).

Definition connection_zrem (m : string) : M unit :=
  update (with_redis (with_scheduled_jobs (ZSet.zrem m))).

Definition connection_zscore (m : string) : M (option Z) :=
  read (λ w, ZSet.zscore m (scheduled_jobs (redis w))).

Definition connection_zcount (lo : Z) (hi : ZSet.bound) : M Z :=
  read (λ w, ZSet.zcount lo hi (scheduled_jobs (redis w))).

Definition connection_zrangebyscore (lo : Z) (hi : ZSet.bound)
    (start num : option Z) : M ZSet.t :=
  λ w, match ZSet.zrangebyscore lo hi start num (scheduled_jobs (redis w)) with
       | inr l => (Returned l, w)
       | inl e => (Raised e, w)
       end.

(** EXISTS, HEXISTS, DEL, HSET, EXPIRE on [rq:scheduler] *)
Definition connection_exists : M bool :=
  read (λ w, bool_decide (is_Some (scheduler_hash (redis w)))).

Definition connection_hexists (field : string) : M bool :=
  read (λ w, match scheduler_hash (redis w) with
             | Some h => bool_decide (is_Some (fields h !! field))
             | None => false
             end).

Definition connection_delete : M unit :=
  update (with_redis (with_scheduler_hash (λ _, None))).

Definition connection_hset (field : string) (v : Q) : M unit :=
  update (with_redis (with_scheduler_hash (λ o,
    match o with
    | Some h => Some (mkLiveness (<[field := v]> (fields h)) (expiry h))
    | None => Some (mkLiveness {[field := v]} None)
    end))).

Definition connection_expire (seconds : Z) : M unit :=
  update (with_redis (with_scheduler_hash (λ o,
    match o with
    | Some h => Some (mkLiveness (fields h) (Some seconds))
    | None => None
    end))).

(** SET rq:scheduler_lock value EX ex NX, and DEL of the same key *)
Definition connection_set_nx (v : Q) (ex : Z) : M bool :=
  λ w, match scheduler_lock (redis w) with
       | Some _ => (Returned false, w)
       | None => (Returned true, with_redis (with_scheduler_lock (λ _, Some (v, ex))) w)
       end.

Definition connection_delete_lock : M unit :=
  update (with_redis (with_scheduler_lock (λ _, None))).

(** *** rq: jobs and queues *)

(** [Job.create(...)]: a record in memory, with the id given or a fresh
    one, no origin yet and an empty [meta]. *)
Definition Job_create (f : string) (a : list string) (kw : list (string * string))
    (rttl t : option Z) (i : option string) (d : option string) (tmo : option Z) : M Job :=
  let* i' := match i with Some x => ret x | None => uuid4 end in
  ret (mkJob i' "" f a kw rttl t tmo d (mkMeta None None None)).

(** [job.save()] *)
Definition Job_save (j : Job) : M unit :=
  update (with_redis (with_job_hashes (<[job_id j := j]>))).

(** [Job.fetch(id)]: the record saved under the id, or [NoSuchJobError]. *)
Definition Job_fetch (i : string) : M Job :=
  λ w, match job_hashes (redis w) !! i with
       | Some j => (Returned (set_id i j), w)
       | None => (Raised NoSuchJobError, w)
       end.

(** [Queue.enqueue_job(job)] of rq: it stamps the job with the queue's
    name, saves it and pushes its id on the queue's list, unless it
    raises. *)
Definition Queue_enqueue_job (q : string) (j : Job) : M unit :=
  if enqueue_fails j then raise EnqueueError
  else
    Job_save (set_origin q j) >>
    update (with_redis (with_queues (λ qs, <[q := (default [] (qs !! q) ++ [job_id j])%list]> qs))).

(** *** The methods of [Scheduler] *)

Definition scheduler_ttl (self : Scheduler) : Z := py_int (_interval self) + 10.

Definition register_birth (self : Scheduler) : M unit :=
  let* present := connection_exists in
  let* live := (if present
                then let* dead := connection_hexists "death" in ret (negb dead)
                else ret false) in
  if live then raise (ValueError "There's already an active RQ scheduler")
  else
    let* now := time_time in
    connection_delete >>
    connection_hset "birth" now >>
    connection_expire (scheduler_ttl self).

Definition register_death : M unit :=
  let* now := time_time in
  connection_hset "death" now >>
  connection_expire 60.

Definition acquire_lock (self : Scheduler) : M bool :=
  let* now := time_time in
  let expires := scheduler_ttl self in
  let* got := connection_set_nx now expires in
  update (with_process (λ p, mkProcess got (clock_reads p) (ids_drawn p))) >>
  ret got.

Definition remove_lock : M unit :=
  let* held := read (λ w, _lock_acquired (process w)) in
  if held then connection_delete_lock else ret tt.

(** [queue_name or self.queue_name] *)
Definition or_default (x : option string) (d : string) : string :=
  match x with
  | Some s => if String.eqb s "" then d else s
  | None => d
  end.

Definition _create_job (self : Scheduler) (f : string)
    (a : option (list string)) (kw : option (list (string * string)))
    (commit : bool) (rttl t : option Z) (i : option string)
    (d : option string) (qn : option string) (tmo : option Z) : M Job :=
  let a := default [] a in
  let kw := default [] kw in
  let* job := Job_create f a kw rttl t i d tmo in
  let job := set_origin (or_default qn (queue_name self)) job in
  (if commit then Job_save job else ret tt) >>
  ret job.

(** [enqueue_at(scheduled_time, func, *args, **kwargs)]: the four options
    popped from [kwargs] are arguments of their own. *)
Definition enqueue_at (self : Scheduler) (scheduled_time : datetime) (f : string)
    (a : list string) (kw : list (string * string))
    (tmo : option Z) (jid : option string) (job_ttl job_result_ttl : option Z) : M Job :=
  let* job := _create_job self f (Some a) (Some kw) true job_result_ttl job_ttl
                          jid None None tmo in
  connection_zadd (to_unix scheduled_time) (job_id job) >>
  ret job.

(** [schedule]: [interval] and [repeat] are integers, which [int()]
    returns as they are. *)
Definition schedule (self : Scheduler) (scheduled_time : datetime) (f : string)
    (a : option (list string)) (kw : option (list (string * string)))
    (interval repeat : option Z) (rttl t tmo : option Z) (i : option string)
    (d : option string) (qn : option string) : M Job :=
  let rttl := match interval, rttl with
              | Some _, None => Some (-1)
              | _, _ => rttl
              end in
  let* job := _create_job self f a kw false rttl t i d qn tmo in
  let job := match interval with
             | Some v => meta_set_interval v job
             | None => job
             end in
  let job := match repeat with
             | Some v => meta_set_repeat v job
             | None => job
             end in
  if truthy_int repeat && bool_decide (interval = None)
  then raise (ValueError "Can't repeat a job without interval argument")
  else
    Job_save job >>
    connection_zadd (to_unix scheduled_time) (job_id job) >>
    ret job.

(** [cron]: the next time is computed first, so an expression that does
    not parse raises before anything is created. *)
Definition cron (self : Scheduler) (cron_string : string) (f : string)
    (a : option (list string)) (kw : option (list (string * string)))
    (repeat : option Z) (qn : option string) (i : option string)
    (tmo : option Z) (d : option string) : M Job :=
  let* now := utcnow in
  match get_next_scheduled_time cron_string now with
  | inl e => raise e
  | inr scheduled_time =>
      let* job := _create_job self f a kw false (Some (-1)) None i d qn tmo in
      let job := meta_set_cron_string cron_string job in
      let job := match repeat with
                 | Some v => meta_set_repeat v job
                 | None => job
                 end in
      Job_save job >>
      connection_zadd (to_unix scheduled_time) (job_id job) >>
      ret job
  end.

(** The argument of [cancel] and [__contains__]: a job or a job id. *)
Inductive job_ref : Type :=
| ByJob (j : Job)
| ById (i : string).

Definition ref_id (x : job_ref) : string :=
  match x with
  | ByJob j => job_id j
  | ById i => i
  end.

Definition cancel (job : job_ref) : M unit :=
  match job with
  | ByJob j => connection_zrem (job_id j)
  | ById i => connection_zrem i
  end.

Definition contains (item : job_ref) : M bool :=
  let* sc := connection_zscore (ref_id item) in
  ret (bool_decide (sc ≠ None)).

Definition count (until : option (until_arg datetime timedelta)) : M Z :=
  let until := rationalize_until until in
  connection_zcount 0 until.

Definition epoch_to_datetime (epoch : Z) : datetime := from_unix epoch.

(** The loop of [get_jobs]: a record that is found is appended to
    [jobs], an id without a record is cancelled. *)
Fixpoint get_jobs_loop (job_ids : list (string * option datetime))
    (jobs : list (Job * option datetime)) : M (list (Job * option datetime)) :=
  match job_ids with
  | [] => ret jobs
  | (i, sched_time) :: rest =>
      let* jobs :=
        try_except
          (let* job := Job_fetch i in ret (jobs ++ [(job, sched_time)])%list)
          (λ e, match e with
                | NoSuchJobError => Some (cancel (ById i) >> ret jobs)
                | _ => None
                end) in
      get_jobs_loop rest jobs
  end.

(** [get_jobs]: an item of the result is the job, paired with its time
    under [with_times] and with [None] otherwise. *)
Definition get_jobs (until : option (until_arg datetime timedelta))
    (with_times : bool) (offset length : option Z) : M (list (Job * option datetime)) :=
  let until := rationalize_until until in
  let* job_ids := connection_zrangebyscore 0 until offset length in
  let job_ids :=
    (λ e, (ZSet.member e,
           if with_times then Some (epoch_to_datetime (ZSet.score e)) else None))
      <$> job_ids in
  get_jobs_loop job_ids [].

Definition get_jobs_to_queue (with_times : bool) : M (list (Job * option datetime)) :=
  let* now := utcnow in
  get_jobs (Some (UntilEpoch (to_unix now))) with_times None None.

(** The queue of a job, by its name. *)
Definition get_queue_for_job (job : Job) : M string := ret (origin job).

(** [enqueue_job] changes [job.meta] of the object it is given; the
    model returns the object as the method leaves it.  [int(repeat)],
    [int(interval)] and [cron_string] are read under guards that exclude
    [None], where [default] gives the value itself. *)
Definition enqueue_job (job : Job) : M Job :=
  let interval := meta_interval (meta job) in
  let repeat := meta_repeat (meta job) in
  let cron_string := meta_cron_string (meta job) in
  let job := if truthy_int repeat
             then meta_set_repeat (default 0 repeat - 1) job
             else job in
  let* queue := get_queue_for_job job in
  Queue_enqueue_job queue job >>
  connection_zrem (job_id job) >>
  if truthy_int interval then
    if bool_decide (repeat ≠ None) && bool_decide (meta_repeat (meta job) = Some 0)
    then ret job
    else
      let* now := utcnow in
      connection_zadd (to_unix now + default 0 interval) (job_id job) >>
      ret job
  else if truthy_str cron_string then
    if bool_decide (repeat ≠ None) && bool_decide (meta_repeat (meta job) = Some 0)
    then ret job
    else
      let* now := utcnow in
      match get_next_scheduled_time (default "" cron_string) now with
      | inl e => raise e
      | inr next =>
          connection_zadd (to_unix next) (job_id job) >>
          ret job
      end
  else ret job.

Definition enqueue_jobs (self : Scheduler) : M (list Job) :=
  let* jobs := get_jobs_to_queue false in
  let* jobs := for_each enqueue_job (fst <$> jobs) in
  connection_expire (scheduler_ttl self) >>
  ret jobs.

(** One turn of the loop of [run]: it ends in [break] or hands a number
    of seconds to [time.sleep]. *)
Inductive iteration : Type :=
| Break
| Sleep (seconds : Q).

Definition run_iteration (self : Scheduler) (burst : bool) : M iteration :=
  let* start_time := time_time in
  let* got := acquire_lock self in
  let* stop := (if got then enqueue_jobs self >> ret burst else ret false) in
  if stop then ret Break
  else
    let* now := time_time in
    ret (Sleep (_interval self - (now - start_time))%Q).

Inductive loop_status : Type :=
| Left
| Running.

Fixpoint run_loop (fuel : nat) (self : Scheduler) (burst : bool) : M loop_status :=
  match fuel with
  | O => ret Running
  | S fuel' =>
      let* it := run_iteration self burst in
      match it with
      | Break => ret Left
      | Sleep seconds => time_sleep seconds >> run_loop fuel' self burst
      end
  end.

(** [run]: signal handlers are not modelled.  The [finally] clause runs
    when the loop is left, by [break] or by an exception. *)
Definition run (fuel : nat) (self : Scheduler) (burst : bool) : M loop_status :=
  register_birth self >>
  λ w, match run_loop fuel self burst w with
       | (Returned Running, w') => (Returned Running, w')
       | (r, w') => try_finally (λ w0, (r, w0)) (remove_lock >> register_death) w'
       end.

(** *** [change_execution_time] among other clients

    The method runs its commands one at a time, and other clients may
    write in between: every turn of the [while 1] loop takes the next
    [round] of their commands.  The result is [None] when the rounds
    are used up while the loop is still going. *)

Definition others_run (cs : list client_cmd) : M unit :=
  update (with_redis (with_scheduled_jobs (run_cmds cs))).

Definition not_scheduled : py_exn := ValueError "Job not in scheduled jobs queue".

(** The body of [try]: WATCH, ZSCORE, ZADD. *)
Definition attempt (r : round) (job : Job) (date_time : datetime) : M unit :=
  let* watched := read (λ w, scheduled_jobs (redis w)) in
  others_run (after_watch r) >>
  let* sc := connection_zscore (job_id job) in
  if bool_decide (sc = None) then raise not_scheduled
  else
    others_run (after_check r) >>
    if watch_error watched (after_watch r ++ after_check r)
    then raise WatchError
    else connection_zadd (to_unix date_time) (job_id job).

Fixpoint change_execution_time (others : list round) (job : Job)
    (date_time : datetime) : M (option unit) :=
  match others with
  | [] => ret None
  | r :: rest =>
      try_except
        (attempt r job date_time >> ret (Some tt))
        (λ e, match e with
              | WatchError =>
                  Some (others_run (after_conflict r) >>
                        let* sc := connection_zscore (job_id job) in
                        if bool_decide (sc = None) then raise not_scheduled
                        else change_execution_time rest job date_time)
              | _ => None
              end)
  end.

End Scheduler.

(** ** A concrete environment

    Times are seconds since the epoch, a time delta counts from the
    epoch, and every cron expression but the empty one means "at the
    start of every minute". *)

Module Sample.

Definition utils : Utils := {|
  datetime := Z;
  timedelta := Z;
  to_unix := λ d, d;
  from_unix := λ e, e;
  get_next_scheduled_time := λ c now,
    if String.eqb c "" then inl (ValueError "Invalid cron expression")
    else inr ((now / 60 + 1) * 60);
  rationalize_until := λ u,
    match u with
    | None => ZSet.PlusInf
    | Some (UntilDatetime d) => ZSet.Finite d
    | Some (UntilTimedelta d) => ZSet.Finite d
    | Some (UntilEpoch e) => ZSet.Finite e
    end
|}.

(** The clock reads [clock n] at its [n]-th reading; [fails] tells the
    jobs that the queue refuses; the store would refuse a write after
    any change of the watched key, which makes no difference where no
    other client writes. *)
Definition env (clock : nat → Z) (fails : Job → bool) : @Env utils := {|
  utcnow_at := clock : nat → @datetime utils;
  time_at := λ n, inject_Z (clock n);
  uuid4_at := λ n, String (Ascii.ascii_of_nat (65 + n)) "";
  enqueue_fails := fails;
  watch_error := λ s cs, touched cs s
|}.

(** The store as redis-py drives it for [change_execution_time]: the
    write of the watching pipeline runs at once and never raises
    [WatchError]. *)
Definition careless_env (clock : nat → Z) : @Env utils := {|
  utcnow_at := clock : nat → @datetime utils;
  time_at := λ n, inject_Z (clock n);
  uuid4_at := λ n, String (Ascii.ascii_of_nat (65 + n)) "";
  enqueue_fails := λ _, false;
  watch_error := λ _ _, false
|}.

Definition empty_redis : Redis := mkRedis [] ∅ ∅ None None.
Definition fresh_process : Process := mkProcess false 0 0.
Definition empty_world : World := mkWorld empty_redis fresh_process.

Definition scheduler : Scheduler := mkScheduler "default" 60.

Definition plain_job (i : string) (m : Meta) : Job :=
  mkJob i "default" "app.task" [] [] None None None None m.

Definition world_of (entries : ZSet.t) (jobs : list Job) : World :=
  mkWorld (mkRedis entries (list_to_map ((λ j, (job_id j, j)) <$> jobs)) ∅ None None)
          fresh_process.

(** A store that answers slowly: 50 seconds pass between two readings
    of the clock. *)
Definition slow_clock (n : nat) : Z := 50 * Z.of_nat n.

(** Two due jobs, of which the queue refuses the first. *)
Definition job_a : Job := plain_job "a" (mkMeta None None None).
Definition job_b : Job := plain_job "b" (mkMeta None None None).
Definition two_due : World := world_of [("a", 10); ("b", 20)] [job_a; job_b].

(** An entry whose job record is gone. *)
Definition one_orphan : World := world_of [("ghost", 10)] [].

(** A job scheduled with [interval=10, repeat=2], and one scheduled with
    [interval=0, repeat=2]. *)
Definition every_ten_twice : Job := plain_job "a" (mkMeta (Some 10) (Some 2) None).
Definition every_zero_twice : Job := plain_job "a" (mkMeta (Some 0) (Some 2) None).
Definition last_cron_run : Job := plain_job "a" (mkMeta None (Some 1) (Some "* * * * *")).

(** Another client cancels job ["a"] between the check and the write. *)
Definition cancelled_in_flight : round := mkRound [] [OtherZrem "a"] [].

End Sample.

(** ** Notions the statements use *)

Section Notions.

Context {U : Utils} {E : Env}.

(** A liveness record without a [death] field. *)
Definition live (w : World) : Prop :=
  ∃ h, scheduler_hash (redis w) = Some h ∧ fields h !! "death" = None.

Definition already_running : py_exn :=
  ValueError "There's already an active RQ scheduler".

(** The store after a successful [register_birth] at time [now]. *)
Definition born (self : Scheduler) (now : Q) (r : Redis) : Redis :=
  mkRedis (scheduled_jobs r) (job_hashes r) (queues r)
          (Some (mkLiveness {["birth" := now]} (Some (py_int (_interval self) + 10))))
          (scheduler_lock r).

Definition repeat_without_interval : py_exn :=
  ValueError "Can't repeat a job without interval argument".

(** The entries [get_jobs] looks at, and those among them whose job
    record is missing. *)
Definition due (until : option (until_arg datetime timedelta)) (w : World) : ZSet.t :=
  filter (ZSet.in_range 0 (rationalize_until until)) (scheduled_jobs (redis w)).

Definition orphaned (w : World) (e : ZSet.entry) : Prop :=
  job_hashes (redis w) !! ZSet.member e = None.

Definition orphans (until : option (until_arg datetime timedelta)) (w : World) : ZSet.t :=
  filter (orphaned w) (due until w).

(** [count(until)] is the length of [get_jobs(until)]. *)
Definition count_is_length (until : option (until_arg datetime timedelta))
    (w : World) : Prop :=
  ∃ n l, fst (count until w) = Returned n
         ∧ fst (get_jobs until false None None w) = Returned l
         ∧ n = Z.of_nat (length l).

(** What the loop of [get_jobs] returns for a list of ids, and what it
    leaves of the sorted set. *)
Definition fetched (jh : gmap string Job) (job_ids : list (string * option datetime))
    : list (Job * option datetime) :=
  omap (λ it, (λ j, (set_id (fst it) j, snd it)) <$> jh !! fst it) job_ids.

Definition purged (jh : gmap string Job) (ids : list string) (s : ZSet.t) : ZSet.t :=
  filter (λ e, ¬ (ZSet.member e ∈ ids ∧ jh !! ZSet.member e = None)) s.

(** The pairs the loop of [get_jobs] runs over. *)
Definition job_items (with_times : bool) (es : ZSet.t)
    : list (string * option datetime) :=
  (λ e, (ZSet.member e,
         if with_times then Some (epoch_to_datetime (ZSet.score e)) else None))
    <$> es.

(** The job as [enqueue_job] hands it to the queue: a repeat counter that
    is set and not zero has been decremented. *)
Definition fired (job : Job) : Job :=
  if truthy_int (meta_repeat (meta job))
  then meta_set_repeat (default 0 (meta_repeat (meta job)) - 1) job
  else job.

(** The store once a job has gone to its queue and left the schedule. *)
Definition dispatched (job : Job) (r : Redis) : Redis :=
  with_scheduled_jobs (ZSet.zrem (job_id job))
    (with_queues
       (λ qs, <[origin job := (default [] (qs !! origin job) ++ [job_id job])%list]> qs)
       (with_job_hashes (<[job_id job := set_origin (origin job) job]>) r)).

(** The ids waiting in a queue. *)
Definition queue_of (q : string) (w : World) : list string :=
  default [] (queues (redis w) !! q).

(** A scheduled job fires [k] times: each time its record is fetched, as
    [get_jobs] does for a due entry, and given to [enqueue_job]. *)
Fixpoint fire_times (k : nat) (i : string) : M unit :=
  match k with
  | O => ret tt
  | S k' => let* job := Job_fetch i in enqueue_job job >> fire_times k' i
  end.

(** What a firing of a job with an interval and [n >= 1] repeats left is
    to leave in the schedule store: no entry when the counter reaches 0,
    and otherwise the entry at the time of the firing plus the interval. *)
Definition interval_firing (job : Job) (w : World) : Prop :=
  ∀ iv n,
    meta_interval (meta job) = Some iv →
    meta_repeat (meta job) = Some n → 1 ≤ n →
    enqueue_fails (fired job) = false →
    ZSet.zscore (job_id job) (scheduled_jobs (redis (snd (enqueue_job job w))))
    = if decide (n - 1 = 0) then None
      else Some (to_unix (utcnow_at (clock_reads (process w))) + iv).

(** How often a job id has been pushed on a queue. *)
Definition pushes (i q : string) (w : World) : nat :=
  length (filter (λ x, x = i) (queue_of q w)).


(** The world with a given schedule store. *)
Definition set_scheduled_jobs (s : ZSet.t) (w : World) : World :=
  with_redis (with_scheduled_jobs (λ _, s)) w.

End Notions.

(** ** [enqueue_in] and further notions

    [enqueue_in] adds a [timedelta] to [datetime.utcnow()]; the addition
    belongs to Python's [datetime], so it is a parameter here. *)

Section EnqueueIn.

Context {U : Utils} {E : Env}.

Variable datetime_add : datetime → timedelta → datetime.

(** [enqueue_in(time_delta, func, *args, **kwargs)]: the job is created
    and saved first; the clock is read when the score is computed. *)
Definition enqueue_in (self : Scheduler) (time_delta : timedelta) (f : string)
    (a : list string) (kw : list (string * string))
    (tmo : option Z) (jid : option string) (job_ttl job_result_ttl : option Z) : M Job :=
  let* job := _create_job self f (Some a) (Some kw) true job_result_ttl job_ttl
                          jid None None tmo in
  let* now := utcnow in
  connection_zadd (to_unix (datetime_add now time_delta)) (job_id job) >>
  ret job.

End EnqueueIn.

Section MoreNotions.

Context {U : Utils} {E : Env}.

(** The world in which [run] makes its first pass when the birth is
    registered and the lock is free: the clock has been read for the
    birth, for [start_time] and for the value of the lock. *)
Definition started (self : Scheduler) (w : World) : World :=
  let n := clock_reads (process w) in
  mkWorld (with_scheduler_lock (λ _, Some (time_at (S (S n)), scheduler_ttl self))
             (born self (time_at n) (redis w)))
          (mkProcess true (S (S (S n))) (ids_drawn (process w))).

(** What [run] raises or returns when its loop is left after a pass. *)
Definition left_after {A} (pass : outcome A) : outcome loop_status :=
  match pass with
  | Returned _ => Returned Left
  | Raised e => Raised e
  end.

(** The liveness record after [register_death] at time [now]. *)
Definition dead (now : Q) (o : option Liveness) : option Liveness :=
  Some (mkLiveness (<["death" := now]> (from_option fields ∅ o)) (Some 60)).

(** The item [get_jobs] gives for an entry: the record saved under the
    member, carrying the member as its id, and the time of the score
    under [with_times]. *)
Definition listed (jh : gmap string Job) (with_times : bool)
    (e : ZSet.entry) (item : Job * option datetime) : Prop :=
  ∃ j, jh !! ZSet.member e = Some j
       ∧ item = (set_id (ZSet.member e) j,
                 if with_times then Some (from_unix (ZSet.score e)) else None).

(** The id [Job.create] gives a job, and the process after it. *)
Definition drawn_id (i : option string) (w : World) : string :=
  match i with
  | Some x => x
  | None => uuid4_at (ids_drawn (process w))
  end.

Definition after_draw (i : option string) (p : Process) : Process :=
  match i with
  | Some _ => p
  | None => mkProcess (_lock_acquired p) (clock_reads p) (S (ids_drawn p))
  end.

(** What redis-py raises for an offset without a length. *)
Definition start_num_error : py_exn :=
  RedisError "``start`` and ``num`` must both be specified".

(** An entry whose job record is there. *)
Definition recorded (jh : gmap string Job) (e : ZSet.entry) : Prop :=
  ¬ jh !! ZSet.member e = None.

(** A repeat counter that never reaches 0: none at all, or a negative
    one. *)
Definition unbounded (r : option Z) : Prop :=
  match r with
  | None => True
  | Some n => n < 0
  end.

End MoreNotions.

(** ** Further sample data *)

Module MoreSample.

(** A cron job and an interval job, both without a repeat counter. *)
Definition every_minute : Job :=
  Sample.plain_job "c" (mkMeta None None (Some "* * * * *")).
Definition every_ten : Job := Sample.plain_job "e" (mkMeta (Some 10) None None).

(** One scheduled job while another scheduler holds the lock. *)
Definition lock_held : World :=
  mkWorld (mkRedis [("a", 10)] {["a" := Sample.job_a]} ∅ None (Some (0%Q, 70)))
          Sample.fresh_process.

(** A scheduler is live. *)
Definition one_live : World :=
  mkWorld (mkRedis [] ∅ ∅ (Some (mkLiveness {["birth" := 0%Q]} (Some 70))) None)
          Sample.fresh_process.

(** No other client writes during the turn. *)
Definition quiet : round := mkRound [] [] [].

End MoreSample.

(** * Facts *)

(** ** The sorted set *)

Module ZSetFacts.
Import ZSet.

Lemma elem_of_place e x s : x ∈ place e s ↔ x = e ∨ x ∈ s.
Proof.
  induction s as [|y s IH]; simpl.
  - rewrite list_elem_of_singleton. split; [auto|].
    intros [H|H]; [exact H|inversion H].
  - destruct (entry_leb e y); rewrite !elem_of_cons; [tauto|].
    rewrite IH. tauto.
Qed.

Lemma elem_of_zrem e m s : e ∈ zrem m s ↔ e ∈ s ∧ member e ≠ m.
Proof. unfold zrem. rewrite list_elem_of_filter. tauto. Qed.

Lemma occurrences_cons m e s :
  occurrences m (e :: s)
  = ((if decide (member e = m) then 1 else 0) + occurrences m s)%nat.
Proof.
  unfold occurrences. rewrite filter_cons.
  destruct (decide (member e = m)); reflexivity.
Qed.

Lemma occurrences_place m e s :
  occurrences m (place e s)
  = ((if decide (member e = m) then 1 else 0) + occurrences m s)%nat.
Proof.
  induction s as [|y s IH]; simpl.
  - apply occurrences_cons.
  - destruct (entry_leb e y).
    + apply occurrences_cons.
    + rewrite !occurrences_cons, IH. lia.
Qed.

Lemma occurrences_zrem_eq m s : occurrences m (zrem m s) = 0%nat.
Proof.
  induction s as [|y s IH]; [reflexivity|].
  unfold zrem in *. rewrite filter_cons.
  destruct (decide (member y ≠ m)) as [Hne|_]; [|exact IH].
  rewrite occurrences_cons, IH.
  destruct (decide (member y = m)); [contradiction|reflexivity].
Qed.

Lemma occurrences_zrem_ne m m' s :
  m ≠ m' → occurrences m' (zrem m s) = occurrences m' s.
Proof.
  intros Hne. induction s as [|y s IH]; [reflexivity|].
  unfold zrem in *. rewrite filter_cons.
  destruct (decide (member y ≠ m)) as [Hy|Hy].
  - rewrite !occurrences_cons, IH. reflexivity.
  - rewrite occurrences_cons, IH.
    destruct (decide (member y = m')); [|reflexivity].
    exfalso. apply Hy. congruence.
Qed.

Lemma zscore_None m s : zscore m s = None ↔ m ∉ member <$> s.
Proof.
  induction s as [|y s IH]; simpl.
  - split; [intros _; apply not_elem_of_nil|reflexivity].
  - rewrite not_elem_of_cons.
    destruct (decide (member y = m)) as [Heq|Hne].
    + split; [discriminate|]. intros [H _]. congruence.
    + rewrite IH. split; [intros H; split; [congruence|exact H]|tauto].
Qed.

Lemma zscore_Some_elem m sc s : zscore m s = Some sc → (m, sc) ∈ s.
Proof.
  induction s as [|[m' sc'] s IH]; simpl; [discriminate|].
  destruct (decide (m' = m)) as [->|Hne].
  - intros [= ->]. apply list_elem_of_here.
  - intros H. apply list_elem_of_further, IH, H.
Qed.

Lemma zscore_place_eq sc m s :
  zscore m s = None → zscore m (place (m, sc) s) = Some sc.
Proof.
  induction s as [|y s IH]; simpl.
  - intros _. rewrite decide_True by reflexivity. reflexivity.
  - destruct (decide (member y = m)) as [Heq|Hne]; [discriminate|].
    intros H. destruct (entry_leb (m, sc) y); simpl.
    + rewrite decide_True by reflexivity. reflexivity.
    + rewrite decide_False by exact Hne. apply IH, H.
Qed.

Lemma zscore_place_ne e m s :
  member e ≠ m → zscore m (place e s) = zscore m s.
Proof.
  intros Hne. induction s as [|y s IH]; simpl.
  - rewrite decide_False by exact Hne. reflexivity.
  - destruct (entry_leb e y); simpl.
    + rewrite decide_False by exact Hne. reflexivity.
    + rewrite IH. reflexivity.
Qed.

Lemma zscore_zrem_eq m s : zscore m (zrem m s) = None.
Proof.
  apply zscore_None. intros H.
  apply list_elem_of_fmap in H as (e & -> & He).
  apply elem_of_zrem in He as [_ He]. contradiction.
Qed.

Lemma zscore_zrem_ne m m' s : m ≠ m' → zscore m' (zrem m s) = zscore m' s.
Proof.
  intros Hne. induction s as [|y s IH]; [reflexivity|].
  unfold zrem in *. rewrite filter_cons.
  destruct (decide (member y ≠ m)) as [Hy|Hy]; simpl.
  - rewrite IH. reflexivity.
  - rewrite IH. rewrite decide_False; [reflexivity|].
    intros Heq. apply Hy. intros Hm. apply Hne. congruence.
Qed.

Lemma zscore_zadd_eq sc m s : zscore m (zadd sc m s) = Some sc.
Proof. apply zscore_place_eq, zscore_zrem_eq. Qed.

Lemma zscore_zadd_ne sc m m' s :
  m ≠ m' → zscore m' (zadd sc m s) = zscore m' s.
Proof.
  intros Hne. unfold zadd.
  rewrite zscore_place_ne by exact Hne. apply zscore_zrem_ne, Hne.
Qed.

Lemma occurrences_zadd_eq sc m s : occurrences m (zadd sc m s) = 1%nat.
Proof.
  unfold zadd. rewrite occurrences_place, occurrences_zrem_eq.
  simpl. rewrite decide_True; reflexivity.
Qed.

Lemma occurrences_zadd_ne sc m m' s :
  m ≠ m' → occurrences m' (zadd sc m s) = occurrences m' s.
Proof.
  intros Hne. unfold zadd.
  rewrite occurrences_place, occurrences_zrem_ne by exact Hne.
  simpl. rewrite decide_False by exact Hne. reflexivity.
Qed.

Lemma zrem_absent m s : zscore m s = None → zrem m s = s.
Proof.
  induction s as [|y s IH]; [reflexivity|]. simpl.
  destruct (decide (member y = m)) as [Heq|Hne]; [discriminate|].
  intros H. unfold zrem in *. rewrite filter_cons_True by exact Hne.
  rewrite IH by exact H. reflexivity.
Qed.

Lemma zrem_zrem m s : zrem m (zrem m s) = zrem m s.
Proof. apply zrem_absent, zscore_zrem_eq. Qed.

Lemma wf_zrem m s : wf s → wf (zrem m s).
Proof.
  unfold wf, zrem. induction s as [|y s IH]; [intros; constructor|].
  rewrite fmap_cons, NoDup_cons. intros [Hy Hs].
  rewrite filter_cons. destruct (decide (member y ≠ m)); [|auto].
  rewrite fmap_cons, NoDup_cons. split; [|auto].
  intros H. apply Hy.
  apply list_elem_of_fmap in H as (e & -> & He).
  apply list_elem_of_filter in He as [_ He].
  apply list_elem_of_fmap_2, He.
Qed.

Lemma wf_place e s : zscore (member e) s = None → wf s → wf (place e s).
Proof.
  unfold wf. induction s as [|y s IH]; simpl.
  - intros _ _. apply NoDup_singleton.
  - destruct (decide (member y = member e)) as [|Hne]; [discriminate|].
    intros Hz. rewrite NoDup_cons. intros [Hy Hs].
    destruct (entry_leb e y).
    + rewrite !fmap_cons, !NoDup_cons, not_elem_of_cons.
      apply zscore_None in Hz. auto.
    + rewrite fmap_cons, NoDup_cons. split; [|auto].
      intros H. apply list_elem_of_fmap in H as (x & Hx & Hin).
      apply elem_of_place in Hin as [->|Hin]; [congruence|].
      apply Hy. rewrite Hx. apply list_elem_of_fmap_2, Hin.
Qed.

Lemma wf_zadd sc m s : wf s → wf (zadd sc m s).
Proof.
  intros H. apply wf_place; [apply zscore_zrem_eq|apply wf_zrem, H].
Qed.

Lemma wf_filter (P : entry → Prop) `{!∀ e, Decision (P e)} s :
  wf s → wf (filter P s).
Proof.
  unfold wf. induction s as [|y s IH]; [intros; constructor|].
  rewrite fmap_cons, NoDup_cons. intros [Hy Hs].
  rewrite filter_cons. destruct (decide (P y)); [|auto].
  rewrite fmap_cons, NoDup_cons. split; [|auto].
  intros Hin. apply Hy.
  apply list_elem_of_fmap in Hin as (e & -> & He).
  apply list_elem_of_filter in He as [_ He].
  apply list_elem_of_fmap_2, He.
Qed.

(** Filtering keeps the score of a member whose entries all pass. *)
Lemma zscore_filter (P : entry → Prop) `{!∀ e, Decision (P e)} m s :
  (∀ e, e ∈ s → member e = m → P e) →
  zscore m (filter P s) = zscore m s.
Proof.
  induction s as [|y s IH]; [reflexivity|]. intros Hall.
  assert (Hs : zscore m (filter P s) = zscore m s).
  { apply IH. intros e He. apply Hall, list_elem_of_further, He. }
  rewrite filter_cons. simpl.
  destruct (decide (member y = m)) as [Heq|Hne].
  - rewrite decide_True by (apply Hall; [apply list_elem_of_here|exact Heq]).
    simpl. rewrite decide_True by exact Heq. reflexivity.
  - destruct (decide (P y)); [|exact Hs].
    simpl. rewrite decide_False by exact Hne. exact Hs.
Qed.


(** In a well-formed set the score of a member is that of its entry. *)
Lemma wf_zscore e s : wf s → e ∈ s → zscore (member e) s = Some (score e).
Proof.
  unfold wf. induction s as [|y s IH]; [intros _ H; inversion H|].
  rewrite fmap_cons, NoDup_cons, elem_of_cons. intros [Hy Hs] [->|He]; simpl.
  - rewrite decide_True; reflexivity.
  - rewrite decide_False; [auto|].
    intros Heq. apply Hy. rewrite Heq. apply list_elem_of_fmap_2, He.
Qed.

(** The order of the entries: [place] and [filter] keep a set sorted, so
    ZADD and ZREM do, and a range is served in ascending order. *)

Lemma ascii_compare_cases (a b : Ascii.ascii) :
  match Ascii.compare a b with
  | Eq => a = b
  | Lt => (Ascii.N_of_ascii a < Ascii.N_of_ascii b)%N
  | Gt => (Ascii.N_of_ascii b < Ascii.N_of_ascii a)%N
  end.
Proof.
  unfold Ascii.compare.
  destruct (N.compare_spec (Ascii.N_of_ascii a) (Ascii.N_of_ascii b))
    as [Heq|Hlt|Hgt]; [|exact Hlt|exact Hgt].
  rewrite <- (Ascii.ascii_N_embedding a), <- (Ascii.ascii_N_embedding b), Heq.
  reflexivity.
Qed.

Lemma string_leb_trans (a b c : string) :
  String.leb a b = true → String.leb b c = true → String.leb a c = true.
Proof.
  unfold String.leb. revert b c.
  induction a as [|x a IH]; intros [|y b] [|z c]; simpl; try congruence.
  pose proof (ascii_compare_cases x y) as Hxy.
  pose proof (ascii_compare_cases y z) as Hyz.
  pose proof (ascii_compare_cases x z) as Hxz.
  destruct (Ascii.compare x y), (Ascii.compare y z); try congruence;
    destruct (Ascii.compare x z); subst; try congruence; try lia.
  apply IH.
Qed.

Lemma entry_leb_total a b : entry_leb a b = true ∨ entry_leb b a = true.
Proof.
  unfold entry_leb.
  destruct (Z.lt_trichotomy (score a) (score b)) as [Hlt|[Heq|Hgt]].
  - left. apply Z.ltb_lt in Hlt. rewrite Hlt. reflexivity.
  - rewrite Heq, Z.ltb_irrefl, Z.eqb_refl. simpl.
    apply String.leb_total.
  - right. apply Z.ltb_lt in Hgt. rewrite Hgt. reflexivity.
Qed.

Lemma entry_le_trans a b c : entry_le a b → entry_le b c → entry_le a c.
Proof.
  unfold entry_le, entry_leb.
  rewrite !orb_true_iff, !andb_true_iff, !Z.ltb_lt, !Z.eqb_eq.
  intros [H1|[H1 H1']] [H2|[H2 H2']].
  - left. lia.
  - left. lia.
  - left. lia.
  - right. split; [lia|]. eapply string_leb_trans; eassumption.
Qed.

Lemma sorted_place e s : sorted s → sorted (place e s).
Proof.
  unfold sorted. induction s as [|y s IH]; simpl.
  - intros _. repeat constructor.
  - intros Hs. apply StronglySorted_inv in Hs as [Hs Hy].
    destruct (entry_leb e y) eqn:Hle.
    + constructor; [constructor; assumption|].
      constructor; [exact Hle|].
      eapply Forall_impl; [exact Hy|].
      intros x Hx. eapply entry_le_trans; [exact Hle|exact Hx].
    + constructor; [apply IH, Hs|].
      apply Forall_forall. intros x Hx.
      apply elem_of_place in Hx as [->|Hx].
      * destruct (entry_leb_total e y) as [Hey|Hye]; [congruence|exact Hye].
      * rewrite Forall_forall in Hy. apply Hy, Hx.
Qed.

Lemma sorted_filter (P : entry → Prop) `{!∀ e, Decision (P e)} s :
  sorted s → sorted (filter P s).
Proof.
  unfold sorted. induction s as [|y s IH]; [intros; constructor|].
  intros Hs. apply StronglySorted_inv in Hs as [Hs Hy].
  rewrite filter_cons. destruct (decide (P y)); [|auto].
  constructor; [auto|].
  apply Forall_forall. intros x Hx.
  apply list_elem_of_filter in Hx as [_ Hx].
  rewrite Forall_forall in Hy. apply Hy, Hx.
Qed.

Lemma sorted_zrem m s : sorted s → sorted (zrem m s).
Proof. apply sorted_filter. Qed.

Lemma sorted_zadd sc m s : sorted s → sorted (zadd sc m s).
Proof. intros Hs. apply sorted_place, sorted_zrem, Hs. Qed.

Lemma sorted_zrangebyscore lo hi s l :
  sorted s → zrangebyscore lo hi None None s = inr l → sorted l.
Proof. intros Hs [= <-]. apply sorted_filter, Hs. Qed.

Lemma zrem_place_eq sc m s : zscore m s = None → zrem m (place (m, sc) s) = s.
Proof.
  induction s as [|y s IH]; simpl.
  - intros _. unfold zrem. rewrite filter_cons_False; [reflexivity|].
    simpl. intros H. apply H. reflexivity.
  - destruct (decide (member y = m)) as [Heq|Hne]; [discriminate|].
    intros H. unfold zrem in *. destruct (entry_leb (m, sc) y).
    + rewrite filter_cons_False by (simpl; intros Hm; apply Hm; reflexivity).
      rewrite filter_cons_True by exact Hne.
      f_equal. apply (zrem_absent m s H).
    + rewrite filter_cons_True by exact Hne. f_equal. apply IH, H.
Qed.

(** A second ZADD of a member overwrites the first. *)
Lemma zadd_zadd sc1 sc2 m s : zadd sc2 m (zadd sc1 m s) = zadd sc2 m s.
Proof.
  unfold zadd at 1 3. f_equal. unfold zadd.
  apply zrem_place_eq, zscore_zrem_eq.
Qed.

End ZSetFacts.


(** ** The methods *)

Section SchedulerFacts.

Context {U : Utils} {E : Env}.

Lemma world_eta (w : World) : mkWorld (redis w) (process w) = w.
Proof. destruct w; reflexivity. Qed.

Lemma redis_eta (r : Redis) :
  mkRedis (scheduled_jobs r) (job_hashes r) (queues r)
          (scheduler_hash r) (scheduler_lock r) = r.
Proof. destruct r; reflexivity. Qed.

(** *** [cancel] *)

Lemma cancel_run (job : job_ref) (w : World) :
  cancel job w
  = (Returned tt, with_redis (with_scheduled_jobs (ZSet.zrem (ref_id job))) w).
Proof. destruct job; reflexivity. Qed.

(** C10. [cancel] never raises and is idempotent: cancelling an id that has
    no entry leaves the world as it is; cancelling one that has an entry
    removes the entries of that id and no other, so every other member
    keeps its score; and a second [cancel] of the same id changes
    nothing. *)
Theorem cancel_idempotent (job : job_ref) (w : World) :
  let w' := snd (cancel job w) in
  fst (cancel job w) = Returned tt
  ∧ (ZSet.zscore (ref_id job) (scheduled_jobs (redis w)) = None → w' = w)
  ∧ ZSet.zscore (ref_id job) (scheduled_jobs (redis w')) = None
  ∧ (∀ e, e ∈ scheduled_jobs (redis w')
          ↔ e ∈ scheduled_jobs (redis w) ∧ ZSet.member e ≠ ref_id job)
  ∧ (∀ m, m ≠ ref_id job →
          ZSet.zscore m (scheduled_jobs (redis w'))
          = ZSet.zscore m (scheduled_jobs (redis w)))
  ∧ job_hashes (redis w') = job_hashes (redis w)
  ∧ queues (redis w') = queues (redis w)
  ∧ cancel job w' = (Returned tt, w').
Proof.
  intros w'. subst w'. rewrite !cancel_run. simpl.
  split; [reflexivity|].
  split.
  { intros Habs. unfold with_redis, with_scheduled_jobs.
    rewrite (ZSetFacts.zrem_absent _ _ Habs), redis_eta. apply world_eta. }
  split; [apply ZSetFacts.zscore_zrem_eq|].
  split; [intros e; apply ZSetFacts.elem_of_zrem|].
  split.
  { intros m Hm. apply ZSetFacts.zscore_zrem_ne. congruence. }
  split; [reflexivity|]. split; [reflexivity|].
  unfold with_redis, with_scheduled_jobs. simpl.
  rewrite ZSetFacts.zrem_zrem. reflexivity.
Qed.

(** *** [enqueue_at] *)

Lemma enqueue_at_run (self : Scheduler) (t : datetime) (f : string)
    (a : list string) (kw : list (string * string)) (tmo : option Z)
    (i : string) (job_ttl job_result_ttl : option Z) (w : World) :
  let job := mkJob i (or_default None (queue_name self)) f a kw
                   job_result_ttl job_ttl tmo None (mkMeta None None None) in
  enqueue_at self t f a kw tmo (Some i) job_ttl job_result_ttl w
  = (Returned job,
     with_redis (with_scheduled_jobs (ZSet.zadd (to_unix t) i))
       (with_redis (with_job_hashes (<[i := job]>)) w)).
Proof. reflexivity. Qed.

(** C9. Inserting into the schedule store is an upsert keyed by job id:
    after [enqueue_at] with a job id there is exactly one entry for it,
    and after a second [enqueue_at] with the same id there is still
    exactly one, at the time of the second call; the set is the one a
    single insertion at the later time gives, and the members of other
    ids are as they were. *)
Theorem enqueue_at_upsert (self : Scheduler) (t1 t2 : datetime) (i : string)
    (f1 f2 : string) (a1 a2 : list string) (kw1 kw2 : list (string * string))
    (tmo1 tmo2 ttl1 ttl2 rttl1 rttl2 : option Z) (w : World) :
  let w1 := snd (enqueue_at self t1 f1 a1 kw1 tmo1 (Some i) ttl1 rttl1 w) in
  let w2 := snd (enqueue_at self t2 f2 a2 kw2 tmo2 (Some i) ttl2 rttl2 w1) in
  ZSet.occurrences i (scheduled_jobs (redis w1)) = 1%nat
  ∧ ZSet.zscore i (scheduled_jobs (redis w1)) = Some (to_unix t1)
  ∧ ZSet.occurrences i (scheduled_jobs (redis w2)) = 1%nat
  ∧ ZSet.zscore i (scheduled_jobs (redis w2)) = Some (to_unix t2)
  ∧ scheduled_jobs (redis w2) = ZSet.zadd (to_unix t2) i (scheduled_jobs (redis w))
  ∧ ∀ m, m ≠ i →
      ZSet.occurrences m (scheduled_jobs (redis w2))
      = ZSet.occurrences m (scheduled_jobs (redis w))
      ∧ ZSet.zscore m (scheduled_jobs (redis w2))
        = ZSet.zscore m (scheduled_jobs (redis w)).
Proof.
  intros w1 w2. subst w1 w2. rewrite !enqueue_at_run. simpl.
  rewrite ZSetFacts.zadd_zadd.
  split; [apply ZSetFacts.occurrences_zadd_eq|].
  split; [apply ZSetFacts.zscore_zadd_eq|].
  split; [apply ZSetFacts.occurrences_zadd_eq|].
  split; [apply ZSetFacts.zscore_zadd_eq|].
  split; [reflexivity|].
  intros m Hm. split.
  - apply ZSetFacts.occurrences_zadd_ne. congruence.
  - apply ZSetFacts.zscore_zadd_ne. congruence.
Qed.

(** *** [register_birth] *)

Lemma py_int_grace (x : Q) : (x < inject_Z (py_int x + 10))%Q.
Proof.
  destruct x as [n d]. unfold Qlt, py_int. simpl.
  pose proof (Z.quot_rem' n (Z.pos d)) as Hqr.
  assert (Hd : 0 < Z.pos d) by lia.
  assert (Hr : Z.abs (Z.rem n (Z.pos d)) < Z.abs (Z.pos d))
    by (apply Z.rem_bound_abs; lia).
  nia.
Qed.

Lemma register_birth_live (self : Scheduler) (w : World) :
  live w → register_birth self w = (Raised already_running, w).
Proof.
  intros (h & Hh & Hd). destruct w as [[s j q lv l] p].
  simpl in Hh. subst lv.
  unfold register_birth, bind, connection_exists, connection_hexists, read.
  simpl. rewrite Hd. reflexivity.
Qed.

Lemma register_birth_not_live (self : Scheduler) (w : World) :
  ¬ live w →
  register_birth self w
  = (Returned tt,
     mkWorld (born self (time_at (clock_reads (process w))) (redis w))
             (tick (process w))).
Proof.
  intros Hn. destruct w as [[s j q lv l] p].
  unfold register_birth, bind, connection_exists, connection_hexists, read.
  destruct lv as [h|]; simpl.
  - destruct (fields h !! "death") as [v|] eqn:Hd; simpl.
    + reflexivity.
    + exfalso. apply Hn. exists h. split; [reflexivity|exact Hd].
  - reflexivity.
Qed.

(** C8. [register_birth] raises "already active" exactly when the store
    holds a liveness record without a [death] field, and then writes
    nothing.  Otherwise it returns, and the record it leaves has the one
    field [birth], read from the clock, and expires after the poll
    interval, as an integer, plus 10 seconds, which is longer than the
    poll interval; nothing else in the store changes. *)
Theorem register_birth_spec (self : Scheduler) (w : World) :
  (fst (register_birth self w) = Raised already_running ↔ live w)
  ∧ (live w → snd (register_birth self w) = w)
  ∧ (¬ live w →
       register_birth self w
       = (Returned tt,
          mkWorld (born self (time_at (clock_reads (process w))) (redis w))
                  (tick (process w))))
  ∧ (_interval self < inject_Z (py_int (_interval self) + 10))%Q.
Proof.
  split; [|split; [|split]].
  - split.
    + intros Hr. destruct (scheduler_hash (redis w)) as [h|] eqn:Hh.
      * destruct (fields h !! "death") as [v|] eqn:Hd.
        -- rewrite register_birth_not_live in Hr; [discriminate|].
           intros (h' & Hh' & Hd'). congruence.
        -- exists h. split; assumption.
      * rewrite register_birth_not_live in Hr; [discriminate|].
        intros (h' & Hh' & _). congruence.
    + intros Hl. rewrite register_birth_live by exact Hl. reflexivity.
  - intros Hl. rewrite register_birth_live by exact Hl. reflexivity.
  - apply register_birth_not_live.
  - apply py_int_grace.
Qed.

(** *** [schedule] *)

(** C5. [schedule] with a [repeat] that is not zero and no [interval]
    raises, and the store is then as it was before the call: no job
    record has been saved and the schedule store has no new entry. *)
Theorem schedule_repeat_without_interval (self : Scheduler)
    (scheduled_time : datetime) (f : string) (a : option (list string))
    (kw : option (list (string * string))) (repeat : Z) (rttl t tmo : option Z)
    (i : option string) (d : option string) (qn : option string) (w : World) :
  repeat ≠ 0 →
  let result := schedule self scheduled_time f a kw None (Some repeat)
                         rttl t tmo i d qn w in
  fst result = Raised repeat_without_interval
  ∧ redis (snd result) = redis w
  ∧ job_hashes (redis (snd result)) = job_hashes (redis w)
  ∧ scheduled_jobs (redis (snd result)) = scheduled_jobs (redis w).
Proof.
  intros Hr result. subst result.
  unfold schedule, _create_job, Job_create, bind. simpl.
  assert (Ht : (repeat =? 0) = false) by (apply Z.eqb_neq; exact Hr).
  destruct i as [x|]; simpl; rewrite Ht; simpl; repeat split; reflexivity.
Qed.

(** *** [count] and [get_jobs] *)

Lemma filter_all {A} (P : A → Prop) `{!∀ x, Decision (P x)} (l : list A) :
  (∀ x, x ∈ l → P x) → filter P l = l.
Proof.
  induction l as [|x l IH]; [reflexivity|]. intros Hall.
  rewrite filter_cons_True by (apply Hall, list_elem_of_here).
  f_equal. apply IH. intros y Hy. apply Hall, list_elem_of_further, Hy.
Qed.

Lemma filter_ext_in {A} (P Q : A → Prop)
    `{!∀ x, Decision (P x), !∀ x, Decision (Q x)} (l : list A) :
  (∀ x, x ∈ l → (P x ↔ Q x)) → filter P l = filter Q l.
Proof.
  induction l as [|x l IH]; [reflexivity|]. intros Hall.
  assert (Hl : filter P l = filter Q l).
  { apply IH. intros y Hy. apply Hall, list_elem_of_further, Hy. }
  pose proof (Hall x (list_elem_of_here x l)) as Hx.
  destruct (decide (P x)) as [Hp|Hp].
  - rewrite !filter_cons_True by tauto. f_equal. exact Hl.
  - rewrite !filter_cons_False by tauto. exact Hl.
Qed.

Lemma length_filter_split {A} (P : A → Prop) `{!∀ x, Decision (P x)} (l : list A) :
  length l = (length (filter P l) + length (filter (λ x, ¬ P x) l))%nat.
Proof.
  induction l as [|x l IH]; [reflexivity|].
  destruct (decide (P x)) as [Hp|Hp].
  - rewrite filter_cons_True by exact Hp.
    rewrite filter_cons_False by tauto. simpl. lia.
  - rewrite filter_cons_False by exact Hp.
    rewrite filter_cons_True by exact Hp. simpl. lia.
Qed.

Lemma purged_nil (jh : gmap string Job) (s : ZSet.t) : purged jh [] s = s.
Proof.
  unfold purged. apply filter_all. intros e _ [H _]. inversion H.
Qed.

Lemma purged_found (jh : gmap string Job) (i : string) (ids : list string)
    (s : ZSet.t) (j : Job) :
  jh !! i = Some j → purged jh (i :: ids) s = purged jh ids s.
Proof.
  intros Hj. unfold purged. apply list_filter_iff. intros e.
  rewrite elem_of_cons. split; intros Hx [Hin Ho]; apply Hx; split; auto.
  destruct Hin as [Heq|Hin]; [|exact Hin]. congruence.
Qed.

Lemma purged_missing (jh : gmap string Job) (i : string) (ids : list string)
    (s : ZSet.t) :
  jh !! i = None → purged jh ids (ZSet.zrem i s) = purged jh (i :: ids) s.
Proof.
  intros Hj. unfold purged, ZSet.zrem. rewrite list_filter_filter.
  apply list_filter_iff. intros e. rewrite elem_of_cons. split.
  - intros [Hx Hne] [[Heq|Hin] Ho]; [contradiction|]. apply Hx. split; assumption.
  - intros Hx. split.
    + intros [Hin Ho]. apply Hx. split; [right; exact Hin|exact Ho].
    + intros Heq. apply Hx. split; [left; exact Heq|]. congruence.
Qed.

Lemma fetched_cons (jh : gmap string Job) (i : string) (t : option datetime)
    (rest : list (string * option datetime)) :
  fetched jh ((i, t) :: rest)
  = match jh !! i with
    | Some j => (set_id i j, t) :: fetched jh rest
    | None => fetched jh rest
    end.
Proof. unfold fetched. simpl. destruct (jh !! i); reflexivity. Qed.

Lemma get_jobs_loop_run (job_ids : list (string * option datetime))
    (jobs : list (Job * option datetime)) (w : World) :
  get_jobs_loop job_ids jobs w
  = (Returned (jobs ++ fetched (job_hashes (redis w)) job_ids)%list,
     with_redis (with_scheduled_jobs
                   (purged (job_hashes (redis w)) (fst <$> job_ids))) w).
Proof.
  revert jobs w. induction job_ids as [|[i t] rest IH]; intros jobs w.
  - simpl. unfold ret, with_redis, with_scheduled_jobs.
    rewrite purged_nil, redis_eta, world_eta, app_nil_r. reflexivity.
  - rewrite fetched_cons, fmap_cons. simpl.
    unfold bind at 1, try_except, Job_fetch, bind at 1.
    destruct (job_hashes (redis w) !! i) as [j|] eqn:Hj.
    + unfold ret at 1. rewrite IH, <- app_assoc. simpl.
      unfold with_redis, with_scheduled_jobs.
      rewrite (purged_found _ _ _ _ j Hj). reflexivity.
    + unfold bind, connection_zrem, update, ret. rewrite IH. simpl.
      unfold with_redis, with_scheduled_jobs. simpl.
      rewrite (purged_missing _ _ _ _ Hj). reflexivity.
Qed.

Lemma get_jobs_run (until : option (until_arg datetime timedelta))
    (with_times : bool) (w : World) :
  get_jobs until with_times None None w
  = (Returned (fetched (job_hashes (redis w)) (job_items with_times (due until w))),
     with_redis (with_scheduled_jobs
                   (purged (job_hashes (redis w)) (ZSet.member <$> due until w))) w).
Proof.
  unfold get_jobs, bind, connection_zrangebyscore. simpl.
  rewrite get_jobs_loop_run. simpl.
  unfold job_items, due. rewrite <- list_fmap_compose. reflexivity.
Qed.

Lemma length_fetched (jh : gmap string Job) (with_times : bool) (es : ZSet.t) :
  length (fetched jh (job_items with_times es))
  = length (filter (λ e, ¬ jh !! ZSet.member e = None) es).
Proof.
  induction es as [|e es IH]; [reflexivity|].
  unfold job_items. rewrite fmap_cons, fetched_cons.
  fold (job_items with_times es).
  destruct (jh !! ZSet.member e) as [j|] eqn:Hj.
  - rewrite filter_cons_True by (rewrite Hj; discriminate).
    simpl. rewrite IH. reflexivity.
  - rewrite filter_cons_False by (rewrite Hj; tauto). exact IH.
Qed.

Lemma due_purged (jh : gmap string Job) (lo : Z) (hi : ZSet.bound) (s : ZSet.t) :
  filter (ZSet.in_range lo hi)
         (purged jh (ZSet.member <$> filter (ZSet.in_range lo hi) s) s)
  = filter (λ e, ¬ jh !! ZSet.member e = None) (filter (ZSet.in_range lo hi) s).
Proof.
  unfold purged. rewrite !list_filter_filter.
  apply filter_ext_in. intros e He. split.
  - intros [Hr Hp]. split; [|exact Hr].
    intros Ho. apply Hp. split; [|exact Ho].
    apply list_elem_of_fmap_2, list_elem_of_filter. split; assumption.
  - intros [Hn Hr]. split; [exact Hr|]. intros [_ Ho]. contradiction.
Qed.

Lemma count_run (until : option (until_arg datetime timedelta)) (w : World) :
  count until w = (Returned (Z.of_nat (length (due until w))), w).
Proof. reflexivity. Qed.

(** C3, as the code has it.  [count(until)] is the length of
    [get_jobs(until)] plus the number of entries in the range whose job
    record is missing: [get_jobs] leaves those out of its result and
    removes them from the schedule store, so that [count(until)] taken
    after it is the length of its result. *)
Theorem count_get_jobs (until : option (until_arg datetime timedelta))
    (with_times : bool) (w : World) :
  ∃ l w',
    get_jobs until with_times None None w = (Returned l, w')
    ∧ count until w
      = (Returned (Z.of_nat (length l) + Z.of_nat (length (orphans until w))), w)
    ∧ count until w' = (Returned (Z.of_nat (length l)), w')
    ∧ job_hashes (redis w') = job_hashes (redis w).
Proof.
  eexists _, _. split; [apply get_jobs_run|].
  rewrite !count_run, length_fetched.
  split; [|split; [|reflexivity]].
  - f_equal. rewrite <- Nat2Z.inj_add. f_equal. unfold orphans, orphaned.
    rewrite (length_filter_split (λ e, job_hashes (redis w) !! ZSet.member e = None)
                                 (due until w)).
    lia.
  - unfold due. simpl. rewrite due_purged. reflexivity.
Qed.

(** *** [enqueue_job] *)

Lemma fired_id (job : Job) : job_id (fired job) = job_id job.
Proof. unfold fired. destruct (truthy_int _); reflexivity. Qed.

Lemma fired_origin (job : Job) : origin (fired job) = origin job.
Proof. unfold fired. destruct (truthy_int _); reflexivity. Qed.

Lemma fired_interval (job : Job) :
  meta_interval (meta (fired job)) = meta_interval (meta job).
Proof. unfold fired. destruct (truthy_int _); reflexivity. Qed.

Lemma fired_repeat (job : Job) (n : Z) :
  meta_repeat (meta job) = Some n → n ≠ 0 →
  fired job = meta_set_repeat (n - 1) job.
Proof.
  intros Hr Hn. unfold fired. rewrite Hr. simpl.
  apply Z.eqb_neq in Hn. rewrite Hn. reflexivity.
Qed.

(** A counter at zero after the firing was set before it. *)
Lemma fired_zero_set (job : Job) :
  meta_repeat (meta (fired job)) = Some 0 → meta_repeat (meta job) ≠ None.
Proof.
  unfold fired. destruct (meta_repeat (meta job)) as [n|] eqn:Hr.
  - intros _. discriminate.
  - simpl. rewrite Hr. discriminate.
Qed.

Lemma enqueue_job_refused (job : Job) (w : World) :
  enqueue_fails (fired job) = true →
  enqueue_job job w = (Raised EnqueueError, w).
Proof.
  intros Hf. unfold enqueue_job, bind, get_queue_for_job, ret, Queue_enqueue_job.
  fold (fired job). rewrite Hf. reflexivity.
Qed.

Lemma enqueue_job_dropped (job : Job) (w : World) :
  enqueue_fails (fired job) = false →
  meta_repeat (meta (fired job)) = Some 0 →
  enqueue_job job w
  = (Returned (fired job), mkWorld (dispatched (fired job) (redis w)) (process w)).
Proof.
  intros Hf Hz. pose proof (fired_zero_set job Hz) as Hs.
  unfold enqueue_job, bind, get_queue_for_job, ret, Queue_enqueue_job.
  fold (fired job). rewrite Hf. simpl.
  rewrite Hz, (bool_decide_eq_true_2 _ Hs). simpl.
  destruct (truthy_int (meta_interval (meta job)));
    [|destruct (truthy_str (meta_cron_string (meta job)))];
    reflexivity.
Qed.

Lemma enqueue_job_reinserted (job : Job) (iv : Z) (w : World) :
  enqueue_fails (fired job) = false →
  meta_interval (meta job) = Some iv → iv ≠ 0 →
  meta_repeat (meta (fired job)) ≠ Some 0 →
  enqueue_job job w
  = (Returned (fired job),
     mkWorld (with_scheduled_jobs
                (ZSet.zadd (to_unix (utcnow_at (clock_reads (process w))) + iv)
                           (job_id job))
                (dispatched (fired job) (redis w)))
             (tick (process w))).
Proof.
  intros Hf Hi Hiv Hz.
  unfold enqueue_job, bind, get_queue_for_job, ret, Queue_enqueue_job.
  fold (fired job). rewrite Hf, Hi. simpl.
  apply Z.eqb_neq in Hiv. rewrite Hiv. simpl.
  rewrite (bool_decide_eq_false_2 _ Hz), andb_false_r.
  unfold dispatched. rewrite !fired_id. reflexivity.
Qed.

(** C7. A firing that leaves the repeat counter at 0 does not put the job
    back: whatever recurrence the job carries, when the queue takes the
    job [enqueue_job] returns with the entry of the job removed from the
    schedule store and the counter saved at 0, and when the queue refuses
    it [enqueue_job] raises and the store is as before.  In both cases
    nothing has been inserted. *)
Theorem no_reinsert_at_zero (job : Job) (w : World) :
  meta_repeat (meta (fired job)) = Some 0 →
  let res := enqueue_job job w in
  (enqueue_fails (fired job) = false →
     res = (Returned (fired job),
            mkWorld (dispatched (fired job) (redis w)) (process w))
     ∧ ZSet.zscore (job_id job) (scheduled_jobs (redis (snd res))) = None
     ∧ ZSet.occurrences (job_id job) (scheduled_jobs (redis (snd res))) = 0%nat
     ∧ (λ j, meta_repeat (meta j)) <$> job_hashes (redis (snd res)) !! job_id job
       = Some (Some 0))
  ∧ (enqueue_fails (fired job) = true → res = (Raised EnqueueError, w))
  ∧ (scheduled_jobs (redis (snd res)) = scheduled_jobs (redis w)
     ∨ scheduled_jobs (redis (snd res))
       = ZSet.zrem (job_id job) (scheduled_jobs (redis w))).
Proof.
  intros Hz res. subst res.
  destruct (enqueue_fails (fired job)) eqn:Hf.
  - rewrite enqueue_job_refused by exact Hf.
    split; [discriminate|]. split; [reflexivity|]. left. reflexivity.
  - rewrite enqueue_job_dropped by assumption. simpl. rewrite !fired_id.
    split; [|split; [discriminate|right; reflexivity]].
    intros _. split; [reflexivity|].
    split; [apply ZSetFacts.zscore_zrem_eq|].
    split; [apply ZSetFacts.occurrences_zrem_eq|].
    rewrite lookup_insert_eq. simpl. rewrite Hz. reflexivity.
Qed.

(** *** Repeated firings *)

Lemma set_id_same (i : string) (j : Job) : job_id j = i → set_id i j = j.
Proof. destruct j. simpl. intros ->. reflexivity. Qed.

Lemma set_origin_same (j : Job) : set_origin (origin j) j = j.
Proof. destruct j. reflexivity. Qed.

Lemma meta_set_repeat_same (j : Job) (n : Z) :
  meta_repeat (meta j) = Some n → meta_set_repeat n j = j.
Proof. destruct j as [? ? ? ? ? ? ? ? ? [? ? ?]]. simpl. intros ->. reflexivity. Qed.

Lemma meta_set_repeat_twice (a b : Z) (j : Job) :
  meta_set_repeat a (meta_set_repeat b j) = meta_set_repeat a j.
Proof. reflexivity. Qed.

Lemma queue_of_dispatched (job : Job) (w w' : World) :
  queues (redis w') = queues (dispatched job (redis w)) →
  queue_of (origin job) w' = (queue_of (origin job) w ++ [job_id job])%list.
Proof.
  intros Hq. unfold queue_of. rewrite Hq. simpl.
  rewrite lookup_insert_eq. reflexivity.
Qed.

Lemma fire_times_run (i : string) (iv : Z) (m : nat) :
  ∀ (job : Job) (n : Z) (w : World),
    (∀ j, job_id j = i → enqueue_fails j = false) →
    iv ≠ 0 →
    job_hashes (redis w) !! i = Some job → job_id job = i →
    meta_interval (meta job) = Some iv → meta_repeat (meta job) = Some n →
    Z.of_nat m ≤ n →
    ∃ w', fire_times m i w = (Returned tt, w')
      ∧ queue_of (origin job) w' = (queue_of (origin job) w ++ replicate m i)%list
      ∧ job_hashes (redis w') !! i = Some (meta_set_repeat (n - Z.of_nat m) job)
      ∧ ((0 < m)%nat → Z.of_nat m < n →
           is_Some (ZSet.zscore i (scheduled_jobs (redis w'))))
      ∧ ((0 < m)%nat → Z.of_nat m = n →
           ZSet.zscore i (scheduled_jobs (redis w')) = None).
Proof.
  induction m as [|m IH]; intros job n w Hok Hiv Hst Hid Hint Hrep Hle.
  - exists w. simpl. rewrite app_nil_r, Z.sub_0_r.
    rewrite (meta_set_repeat_same _ _ Hrep).
    repeat split; try assumption; lia.
  - assert (Hn : n ≠ 0) by lia.
    pose proof (fired_repeat job n Hrep Hn) as Hfired.
    assert (Hf : enqueue_fails (fired job) = false).
    { apply Hok. rewrite fired_id. exact Hid. }
    simpl. unfold bind at 1, Job_fetch. rewrite Hst.
    rewrite (set_id_same _ _ Hid). unfold bind at 1.
    destruct (decide (n = 1)) as [Hn1|Hn1].
    + assert (m = 0%nat) by lia. subst m n.
      rewrite enqueue_job_dropped; [|exact Hf|rewrite Hfired; reflexivity].
      simpl. eexists. split; [reflexivity|].
      rewrite <- (fired_origin job) at 1.
      rewrite (queue_of_dispatched (fired job) w) by reflexivity.
      simpl. rewrite !fired_id, Hid.
      split; [rewrite fired_origin; reflexivity|].
      split; [rewrite lookup_insert_eq, set_origin_same, Hfired; reflexivity|].
      split; [lia|]. intros _ _. apply ZSetFacts.zscore_zrem_eq.
    + rewrite (enqueue_job_reinserted job iv w Hf Hint Hiv);
        [|rewrite Hfired; simpl; intros [= Hz]; lia].
      set (w1 := mkWorld _ _).
      destruct (IH (fired job) (n - 1) w1) as (w' & Hrun & Hq & Hs & Hlt & Heq).
      * exact Hok.
      * exact Hiv.
      * subst w1. simpl. rewrite fired_id, Hid, lookup_insert_eq, set_origin_same.
        reflexivity.
      * rewrite fired_id. exact Hid.
      * rewrite fired_interval. exact Hint.
      * rewrite Hfired. reflexivity.
      * lia.
      * exists w'. split; [exact Hrun|].
        rewrite fired_origin in Hq.
        split.
        { rewrite Hq. subst w1.
          rewrite <- (fired_origin job) at 1.
          rewrite (queue_of_dispatched (fired job) w) by reflexivity.
          rewrite fired_id, Hid, fired_origin, <- app_assoc.
          reflexivity. }
        split.
        { rewrite Hs, Hfired, meta_set_repeat_twice.
          replace (n - 1 - Z.of_nat m) with (n - Z.of_nat (S m)) by lia.
          reflexivity. }
        destruct m as [|m].
        { simpl in Hrun. injection Hrun as <-. split; [|lia].
          intros _ _. subst w1. simpl. rewrite Hid.
          rewrite ZSetFacts.zscore_zadd_eq. eexists. reflexivity. }
        split.
        { intros _ Hlt'. apply Hlt; lia. }
        { intros _ Heq'. apply Heq; lia. }
Qed.

(** C4, as the code has it.  For a job whose interval is not zero and
    whose repeat counter is [n >= 1], a firing first decrements the
    counter.  If it has reached 0 the job leaves the schedule store;
    otherwise the job is put back at the time of the firing plus the
    interval.  The queue saves the job with the decremented counter, so
    the job fires exactly [n] times: after each of the first [n - 1]
    firings it is in the schedule store again, after the [n]-th it is
    not, and its queue has received its id [n] times. *)
Theorem interval_repeat_firing (job : Job) (iv n : Z) (w : World) :
  meta_interval (meta job) = Some iv → iv ≠ 0 →
  meta_repeat (meta job) = Some n → 1 ≤ n →
  enqueue_fails (fired job) = false →
  fired job = meta_set_repeat (n - 1) job
  ∧ enqueue_job job w
    = (Returned (fired job),
       if decide (n - 1 = 0)
       then mkWorld (dispatched (fired job) (redis w)) (process w)
       else mkWorld
              (with_scheduled_jobs
                 (ZSet.zadd (to_unix (utcnow_at (clock_reads (process w))) + iv)
                            (job_id job))
                 (dispatched (fired job) (redis w)))
              (tick (process w)))
  ∧ ZSet.zscore (job_id job) (scheduled_jobs (redis (snd (enqueue_job job w))))
    = (if decide (n - 1 = 0) then None
       else Some (to_unix (utcnow_at (clock_reads (process w))) + iv))
  ∧ (job_hashes (redis w) !! job_id job = Some job →
     (∀ j, job_id j = job_id job → enqueue_fails j = false) →
     (∀ m, (0 < m < Z.to_nat n)%nat →
        ∃ w', fire_times m (job_id job) w = (Returned tt, w')
          ∧ is_Some (ZSet.zscore (job_id job) (scheduled_jobs (redis w')))
          ∧ (λ j, meta_repeat (meta j)) <$> job_hashes (redis w') !! job_id job
            = Some (Some (n - Z.of_nat m))
          ∧ queue_of (origin job) w'
            = (queue_of (origin job) w ++ replicate m (job_id job))%list)
     ∧ ∃ w', fire_times (Z.to_nat n) (job_id job) w = (Returned tt, w')
         ∧ ZSet.zscore (job_id job) (scheduled_jobs (redis w')) = None
         ∧ queue_of (origin job) w'
           = (queue_of (origin job) w ++ replicate (Z.to_nat n) (job_id job))%list).
Proof.
  intros Hint Hiv Hrep Hn Hf.
  assert (Hn0 : n ≠ 0) by lia.
  pose proof (fired_repeat job n Hrep Hn0) as Hfired.
  assert (Hrun : enqueue_job job w
    = (Returned (fired job),
       if decide (n - 1 = 0)
       then mkWorld (dispatched (fired job) (redis w)) (process w)
       else mkWorld
              (with_scheduled_jobs
                 (ZSet.zadd (to_unix (utcnow_at (clock_reads (process w))) + iv)
                            (job_id job))
                 (dispatched (fired job) (redis w)))
              (tick (process w)))).
  { destruct (decide (n - 1 = 0)) as [Hz|Hz].
    - apply enqueue_job_dropped; [exact Hf|]. rewrite Hfired. simpl. congruence.
    - apply (enqueue_job_reinserted job iv w Hf Hint Hiv).
      rewrite Hfired. simpl. intros [= Hz']. contradiction. }
  split; [exact Hfired|]. split; [exact Hrun|]. split.
  { rewrite Hrun. destruct (decide (n - 1 = 0)); simpl.
    - rewrite fired_id. apply ZSetFacts.zscore_zrem_eq.
    - apply ZSetFacts.zscore_zadd_eq. }
  intros Hst Hok. split.
  - intros m [Hm0 Hmn].
    destruct (fire_times_run (job_id job) iv m job n w Hok Hiv Hst eq_refl Hint Hrep)
      as (w' & Hr & Hq & Hs & Hlt & _); [lia|].
    exists w'. split; [exact Hr|]. split; [apply Hlt; lia|].
    split; [rewrite Hs; reflexivity|exact Hq].
  - destruct (fire_times_run (job_id job) iv (Z.to_nat n) job n w Hok Hiv Hst eq_refl
                             Hint Hrep)
      as (w' & Hr & Hq & _ & _ & Heq); [lia|].
    exists w'. split; [exact Hr|]. split; [apply Heq; lia|exact Hq].
Qed.

(** *** [enqueue_jobs] *)

(** What [enqueue_job] can do to the store: nothing, the dispatch, or the
    dispatch and one insertion for the job. *)
Lemma enqueue_job_shape (job : Job) (w : World) :
  redis (snd (enqueue_job job w)) = redis w
  ∨ redis (snd (enqueue_job job w)) = dispatched (fired job) (redis w)
  ∨ ∃ sc, redis (snd (enqueue_job job w))
          = with_scheduled_jobs (ZSet.zadd sc (job_id job))
                                (dispatched (fired job) (redis w)).
Proof.
  unfold enqueue_job, bind, get_queue_for_job, ret, Queue_enqueue_job.
  fold (fired job).
  destruct (enqueue_fails (fired job)); [left; reflexivity|]. simpl.
  destruct (truthy_int (meta_interval (meta job))).
  - destruct (_ && _); simpl.
    + right. left. reflexivity.
    + right. right. eexists. unfold dispatched. rewrite !fired_id. reflexivity.
  - destruct (truthy_str (meta_cron_string (meta job))); simpl.
    + destruct (_ && _); simpl; [right; left; reflexivity|].
      destruct (get_next_scheduled_time _ _); simpl.
      * right. left. reflexivity.
      * right. right. eexists. unfold dispatched. rewrite !fired_id. reflexivity.
    + right. left. reflexivity.
Qed.

Lemma pushes_dispatched (job : Job) (w w' : World) (m q : string) :
  queues (redis w') = queues (dispatched job (redis w)) →
  m ≠ job_id job →
  pushes m q w' = pushes m q w.
Proof.
  intros Hq Hne. unfold pushes, queue_of. rewrite Hq. simpl.
  destruct (decide (origin job = q)) as [<-|Hoq].
  - rewrite lookup_insert_eq. simpl. rewrite filter_app.
    rewrite filter_cons_False by congruence.
    rewrite filter_nil, app_nil_r. reflexivity.
  - rewrite lookup_insert_ne by exact Hoq. reflexivity.
Qed.

(** [enqueue_job] leaves the entries and the queue places of other jobs,
    and the liveness record, as they are. *)
Lemma enqueue_job_frame (job : Job) (w : World) (m : string) :
  m ≠ job_id job →
  ZSet.zscore m (scheduled_jobs (redis (snd (enqueue_job job w))))
  = ZSet.zscore m (scheduled_jobs (redis w))
  ∧ (∀ q, pushes m q (snd (enqueue_job job w)) = pushes m q w)
  ∧ scheduler_hash (redis (snd (enqueue_job job w))) = scheduler_hash (redis w).
Proof.
  intros Hne.
  assert (Hm : m ≠ job_id (fired job)) by (rewrite fired_id; exact Hne).
  destruct (enqueue_job_shape job w) as [Hr|[Hr|[sc Hr]]].
  - unfold pushes, queue_of. rewrite Hr. repeat split; reflexivity.
  - split; [|split].
    + rewrite Hr. simpl. apply ZSetFacts.zscore_zrem_ne. congruence.
    + intros q. apply (pushes_dispatched (fired job)); [|exact Hm].
      rewrite Hr. reflexivity.
    + rewrite Hr. reflexivity.
  - split; [|split].
    + rewrite Hr. simpl.
      rewrite ZSetFacts.zscore_zadd_ne by congruence.
      apply ZSetFacts.zscore_zrem_ne. congruence.
    + intros q. apply (pushes_dispatched (fired job)); [|exact Hm].
      rewrite Hr. reflexivity.
    + rewrite Hr. reflexivity.
Qed.

Lemma for_each_cons_snd {A B} (f : A → M B) (x : A) (l : list A) (w : World) :
  snd (for_each f (x :: l) w)
  = match f x w with
    | (Returned _, w1) => snd (for_each f l w1)
    | (Raised _, w1) => w1
    end.
Proof.
  simpl. unfold bind, ret.
  destruct (f x w) as [[y|e] w1]; [|reflexivity].
  destruct (for_each f l w1) as [[ys|e] w2]; reflexivity.
Qed.

Lemma for_each_frame (jobs : list Job) (m : string) :
  ∀ w, m ∉ job_id <$> jobs →
    ZSet.zscore m (scheduled_jobs (redis (snd (for_each enqueue_job jobs w))))
    = ZSet.zscore m (scheduled_jobs (redis w))
    ∧ (∀ q, pushes m q (snd (for_each enqueue_job jobs w)) = pushes m q w)
    ∧ scheduler_hash (redis (snd (for_each enqueue_job jobs w)))
      = scheduler_hash (redis w).
Proof.
  induction jobs as [|x jobs IH]; intros w Hm.
  - simpl. repeat split; reflexivity.
  - rewrite fmap_cons, not_elem_of_cons in Hm. destruct Hm as [Hx Hm].
    destruct (enqueue_job_frame x w m Hx) as (Hz & Hp & Hh).
    rewrite for_each_cons_snd.
    destruct (enqueue_job x w) as [[y|e] w1] eqn:Hrun; simpl in *.
    + destruct (IH w1 Hm) as (Hz' & Hp' & Hh').
      split; [congruence|]. split; [|congruence].
      intros q. rewrite Hp'. apply Hp.
    + split; [exact Hz|]. split; [exact Hp|exact Hh].
Qed.


Lemma get_jobs_to_queue_run (with_times : bool) (w : World) :
  let until := Some (UntilEpoch (to_unix (utcnow_at (clock_reads (process w))))) in
  get_jobs_to_queue with_times w
  = (Returned (fetched (job_hashes (redis w)) (job_items with_times (due until w))),
     mkWorld (with_scheduled_jobs
                (purged (job_hashes (redis w)) (ZSet.member <$> due until w))
                (redis w))
             (tick (process w))).
Proof.
  intros u. unfold get_jobs_to_queue, bind at 1, utcnow.
  rewrite get_jobs_run. reflexivity.
Qed.

Lemma fetched_ids (jh : gmap string Job) (with_times : bool) (es : ZSet.t) :
  job_id <$> (fst <$> fetched jh (job_items with_times es))
  = ZSet.member <$> filter (λ e, ¬ jh !! ZSet.member e = None) es.
Proof.
  induction es as [|e es IH]; [reflexivity|].
  unfold job_items. rewrite fmap_cons, fetched_cons.
  fold (job_items with_times es).
  destruct (jh !! ZSet.member e) as [j|] eqn:Hj.
  - rewrite filter_cons_True by (rewrite Hj; discriminate).
    rewrite !fmap_cons, IH. reflexivity.
  - rewrite filter_cons_False by (rewrite Hj; tauto). exact IH.
Qed.


Lemma enqueue_job_keeps_liveness (job : Job) (w : World) :
  scheduler_hash (redis (snd (enqueue_job job w))) = scheduler_hash (redis w).
Proof.
  destruct (enqueue_job_shape job w) as [Hr|[Hr|[sc Hr]]]; rewrite Hr; reflexivity.
Qed.

Lemma for_each_keeps_liveness (jobs : list Job) :
  ∀ w, scheduler_hash (redis (snd (for_each enqueue_job jobs w)))
       = scheduler_hash (redis w).
Proof.
  induction jobs as [|x jobs IH]; intros w; [reflexivity|].
  rewrite for_each_cons_snd.
  pose proof (enqueue_job_keeps_liveness x w) as Hx.
  destruct (enqueue_job x w) as [[y|e] w1]; simpl in *; [|exact Hx].
  rewrite IH. exact Hx.
Qed.


(** *** [run] *)

(** The number a turn of the loop hands to [time.sleep] is the poll
    interval minus the time between the two readings of the clock,
    whatever its sign. *)
Lemma run_iteration_sleep (self : Scheduler) (burst : bool) (w w' : World) (d : Q) :
  run_iteration self burst w = (Returned (Sleep d), w') →
  d = (_interval self
       - (time_at (pred (clock_reads (process w'))) - time_at (clock_reads (process w))))%Q.
Proof.
  unfold run_iteration, bind at 1, time_time. unfold bind at 1.
  destruct (acquire_lock self (with_process tick w)) as [[got|e] w1];
    [|discriminate].
  unfold bind at 1.
  destruct got.
  - unfold bind at 1.
    destruct (enqueue_jobs self w1) as [[jobs|e] w2]; [|discriminate].
    unfold ret at 1. destruct burst; [discriminate|].
    unfold bind, time_time, ret. intros [= <- <-]. reflexivity.
  - unfold ret at 1. unfold bind, time_time, ret. intros [= <- <-]. reflexivity.
Qed.

(** *** [change_execution_time] *)

Lemma run_cmds_app (a b : list client_cmd) (s : ZSet.t) :
  run_cmds (a ++ b) s = run_cmds b (run_cmds a s).
Proof. unfold run_cmds. apply foldl_app. Qed.

(** One turn of the loop, by the state of the set at its four moments. *)
Lemma change_execution_time_step (r : round) (rest : list round) (job : Job)
    (date_time : datetime) (w : World) :
  let s0 := scheduled_jobs (redis w) in
  let s1 := run_cmds (after_watch r) s0 in
  let s2 := run_cmds (after_check r) s1 in
  let s3 := run_cmds (after_conflict r) s2 in
  change_execution_time (r :: rest) job date_time w
  = if bool_decide (ZSet.zscore (job_id job) s1 = None)
    then (Raised not_scheduled, set_scheduled_jobs s1 w)
    else if watch_error s0 (after_watch r ++ after_check r)
    then if bool_decide (ZSet.zscore (job_id job) s3 = None)
         then (Raised not_scheduled, set_scheduled_jobs s3 w)
         else change_execution_time rest job date_time (set_scheduled_jobs s3 w)
    else (Returned (Some tt),
          set_scheduled_jobs (ZSet.zadd (to_unix date_time) (job_id job) s2) w).
Proof.
  intros s0 s1 s2 s3. subst s0 s1 s2 s3. simpl.
  unfold try_except, attempt, bind, read, others_run, update, connection_zscore,
    read, raise, connection_zadd, update. simpl.
  destruct (bool_decide (ZSet.zscore (job_id job)
                           (run_cmds (after_watch r) (scheduled_jobs (redis w))) = None));
    [reflexivity|]. simpl.
  destruct (watch_error (scheduled_jobs (redis w)) (after_watch r ++ after_check r));
    simpl; [|reflexivity].
  destruct (bool_decide (ZSet.zscore (job_id job) _ = None)); reflexivity.
Qed.

(** C6.  [change_execution_time] as redis-py runs it, with the ZADD sent
    at once and never refused.  A job with no entry at the ZSCORE gives
    the error "not in scheduled jobs queue" and the method writes
    nothing.  A job with an entry at the ZSCORE is written by the ZADD
    of the same turn, whatever other clients do between the two: the
    handler of [WatchError] never runs.  So a job that another client
    removes between the ZSCORE and the ZADD gives no error and is put
    back into the schedule store, at the new time. *)
Theorem change_execution_time_reinserts_removed (job : Job) (date_time : datetime)
    (r : round) (rest : list round) (w : World) :
  writes_at_once →
  let s1 := run_cmds (after_watch r) (scheduled_jobs (redis w)) in
  let s2 := run_cmds (after_check r) s1 in
  let out := change_execution_time (r :: rest) job date_time w in
  (ZSet.zscore (job_id job) s1 = None →
     out = (Raised not_scheduled, set_scheduled_jobs s1 w))
  ∧ (ZSet.zscore (job_id job) s1 ≠ None →
       out = (Returned (Some tt),
              set_scheduled_jobs
                (ZSet.zadd (to_unix date_time) (job_id job) s2) w))
  ∧ (ZSet.zscore (job_id job) s1 ≠ None →
     ZSet.zscore (job_id job) s2 = None →
     fst out = Returned (Some tt)
     ∧ ZSet.zscore (job_id job) (scheduled_jobs (redis (snd out)))
       = Some (to_unix date_time)
     ∧ ZSet.occurrences (job_id job) (scheduled_jobs (redis (snd out))) = 1%nat).
Proof.
  intros Hnow s1 s2 out.
  assert (Hin : ZSet.zscore (job_id job) s1 ≠ None →
                out = (Returned (Some tt),
                       set_scheduled_jobs
                         (ZSet.zadd (to_unix date_time) (job_id job) s2) w)).
  { intros Hin. subst out. rewrite change_execution_time_step. fold s1 s2.
    rewrite (bool_decide_eq_false_2 _ Hin), Hnow. reflexivity. }
  split; [|split; [exact Hin|]].
  - intros Habs. subst out. rewrite change_execution_time_step. fold s1.
    rewrite (bool_decide_eq_true_2 _ Habs). reflexivity.
  - intros Hpresent _. rewrite (Hin Hpresent). cbn [fst snd]. simpl.
    split; [reflexivity|]. split.
    + apply ZSetFacts.zscore_zadd_eq.
    + apply ZSetFacts.occurrences_zadd_eq.
Qed.

End SchedulerFacts.

(** ** Runs on the concrete environment *)

(** C2.  When a turn of the loop takes longer than the poll interval, the
    number handed to [time.sleep] is the interval minus the elapsed time,
    a negative number, and not 0: with a poll interval of 60 seconds and
    a store that takes 150 seconds over the turn, [run_iteration] asks to
    sleep for -90 seconds, [time.sleep] refuses, and [run] ends with its
    [ValueError]. *)
Theorem run_iteration_negative_sleep :
  let E := Sample.env Sample.slow_clock (λ _, false) in
  let interval := _interval Sample.scheduler in
  let elapsed := (time_at (Env:=E) 3 - time_at (Env:=E) 0)%Q in
  fst (run_iteration (E:=E) Sample.scheduler false Sample.empty_world)
  = Returned (Sleep (-90))
  ∧ (interval - elapsed == -90)%Q
  ∧ (Qmax 0 (interval - elapsed) == 0)%Q
  ∧ ¬ (-90 == Qmax 0 (interval - elapsed))%Q
  ∧ fst (time_sleep (-90) Sample.empty_world)
    = Raised (ValueError "sleep length must be non-negative")
  ∧ fst (run (E:=E) 1 Sample.scheduler false Sample.empty_world)
    = Raised (ValueError "sleep length must be non-negative").
Proof.
  simpl. split; [vm_compute; reflexivity|].
  split; [vm_compute; reflexivity|].
  split; [vm_compute; reflexivity|].
  split; [vm_compute; discriminate|].
  split; vm_compute; reflexivity.
Qed.



(** The claim C3 fails on a schedule store with an entry whose job record
    is missing: [count] gives 1 and [get_jobs] the empty list. *)
Lemma count_exceeds_get_jobs :
  ¬ count_is_length (U:=Sample.utils) (Some (UntilEpoch 100)) Sample.one_orphan.
Proof.
  intros (n & l & Hn & Hl & Heq). vm_compute in Hn, Hl.
  injection Hn as <-. injection Hl as <-. discriminate.
Qed.

(** The claim C4 fails for an interval of 0: the job is not put back,
    although its counter has not reached 0. *)
Lemma zero_interval_not_reinserted :
  ¬ interval_firing (E:=Sample.env (λ _, 100) (λ _, false))
      Sample.every_zero_twice
      (Sample.world_of [("a", 50)] [Sample.every_zero_twice]).
Proof.
  intros H. specialize (H 0 2 eq_refl eq_refl ltac:(lia) eq_refl).
  vm_compute in H. discriminate.
Qed.

Lemma interval_repeat_firing_witness :
  ∃ w', fire_times (E:=Sample.env (λ _, 100) (λ _, false)) 2 "a"
          (Sample.world_of [("a", 50)] [Sample.every_ten_twice])
        = (Returned tt, w')
        ∧ ZSet.zscore "a" (scheduled_jobs (redis w')) = None
        ∧ queue_of "default" w' = ["a"; "a"].
Proof.
  destruct (interval_repeat_firing (E:=Sample.env (λ _, 100) (λ _, false))
              Sample.every_ten_twice 10 2
              (Sample.world_of [("a", 50)] [Sample.every_ten_twice])
              eq_refl ltac:(lia) eq_refl ltac:(lia) eq_refl)
    as (_ & _ & _ & Hn).
  destruct (Hn eq_refl (λ _ _, eq_refl)) as (_ & w' & Hrun & Hz & Hq).
  exists w'. split; [exact Hrun|]. split; [exact Hz|exact Hq].
Defined.

(** The scenario of the specification, with three dispatch passes 40
    seconds apart: the job is due at 50 with [interval=10, repeat=2]; the
    first pass sends it to the queue and puts it back 10 seconds after the
    firing with one repeat left, the second sends it again and drops it,
    the third finds nothing. *)
Example ten_seconds_twice :
  let E := Sample.env (λ n, 100 + 20 * Z.of_nat n) (λ _, false) in
  let w0 := Sample.world_of [("a", 50)] [Sample.every_ten_twice] in
  let w1 := snd (enqueue_jobs (E:=E) Sample.scheduler w0) in
  let w2 := snd (enqueue_jobs (E:=E) Sample.scheduler w1) in
  let w3 := snd (enqueue_jobs (E:=E) Sample.scheduler w2) in
  scheduled_jobs (redis w1) = [("a", 130)]
  ∧ (λ j, meta_repeat (meta j)) <$> job_hashes (redis w1) !! "a" = Some (Some 1)
  ∧ queue_of "default" w1 = ["a"]
  ∧ scheduled_jobs (redis w2) = []
  ∧ queue_of "default" w2 = ["a"; "a"]
  ∧ scheduled_jobs (redis w3) = []
  ∧ queue_of "default" w3 = ["a"; "a"].
Proof. vm_compute. repeat split; reflexivity. Qed.

Lemma schedule_repeat_without_interval_witness :
  fst (schedule (E:=Sample.env (λ _, 100) (λ _, false)) Sample.scheduler
         (500 : datetime (Utils:=Sample.utils)) "app.task" None None None (Some 3)
         None None None None None None Sample.empty_world)
  = Raised repeat_without_interval.
Proof.
  apply (schedule_repeat_without_interval (E:=Sample.env (λ _, 100) (λ _, false))
           Sample.scheduler (500 : datetime (Utils:=Sample.utils)) "app.task"
           None None 3 None None None None None None Sample.empty_world).
  lia.
Defined.

Lemma change_execution_time_reinserts_removed_witness :
  change_execution_time (E:=Sample.careless_env (λ _, 100))
    [Sample.cancelled_in_flight] Sample.job_a (99 : datetime (Utils:=Sample.utils))
    (Sample.world_of [("a", 50); ("b", 60)] [Sample.job_a; Sample.job_b])
  = (Returned (Some tt),
     set_scheduled_jobs [("b", 60); ("a", 99)]
       (Sample.world_of [("a", 50); ("b", 60)] [Sample.job_a; Sample.job_b])).
Proof.
  destruct (change_execution_time_reinserts_removed
              (E:=Sample.careless_env (λ _, 100))
              Sample.job_a (99 : datetime (Utils:=Sample.utils))
              Sample.cancelled_in_flight []
              (Sample.world_of [("a", 50); ("b", 60)] [Sample.job_a; Sample.job_b])
              (λ _ _, eq_refl))
    as (_ & Hwrite & _).
  apply Hwrite. vm_compute. discriminate.
Defined.

Lemma no_reinsert_at_zero_witness :
  ZSet.zscore "a"
    (scheduled_jobs
       (redis (snd (enqueue_job (E:=Sample.env (λ _, 100) (λ _, false))
                      Sample.last_cron_run
                      (Sample.world_of [("a", 50)] [Sample.last_cron_run])))))
  = None.
Proof.
  destruct (no_reinsert_at_zero (E:=Sample.env (λ _, 100) (λ _, false))
              Sample.last_cron_run
              (Sample.world_of [("a", 50)] [Sample.last_cron_run]) eq_refl)
    as (Hok & _ & _).
  destruct (Hok eq_refl) as (_ & Hz & _). exact Hz.
Defined.

Lemma register_birth_spec_witness :
  register_birth (E:=Sample.env (λ _, 100) (λ _, false)) Sample.scheduler
    Sample.empty_world
  = (Returned tt,
     mkWorld (born Sample.scheduler 100 Sample.empty_redis)
             (tick Sample.fresh_process)).
Proof.
  destruct (register_birth_spec (E:=Sample.env (λ _, 100) (λ _, false))
              Sample.scheduler Sample.empty_world) as (_ & _ & Hfresh & _).
  apply Hfresh. intros (h & Hh & _). discriminate Hh.
Defined.

Lemma cancel_idempotent_witness :
  snd (cancel (ById "c") Sample.two_due) = Sample.two_due.
Proof.
  destruct (cancel_idempotent (ById "c") Sample.two_due)
    as (_ & Habsent & _).
  apply Habsent. vm_compute. reflexivity.
Defined.

(** * Further facts *)

Section MoreFacts.

Context {U : Utils} {E : Env}.

(** ** The lock *)

Lemma acquire_lock_free (self : Scheduler) (w : World) :
  scheduler_lock (redis w) = None →
  acquire_lock self w
  = (Returned true,
     mkWorld (with_scheduler_lock
                (λ _, Some (time_at (clock_reads (process w)), scheduler_ttl self))
                (redis w))
             (mkProcess true (S (clock_reads (process w))) (ids_drawn (process w)))).
Proof.
  intros Hl. unfold acquire_lock, bind, time_time, connection_set_nx, update, ret.
  simpl. rewrite Hl. reflexivity.
Qed.

Lemma acquire_lock_taken (self : Scheduler) (w : World) :
  is_Some (scheduler_lock (redis w)) →
  acquire_lock self w
  = (Returned false,
     mkWorld (redis w)
             (mkProcess false (S (clock_reads (process w))) (ids_drawn (process w)))).
Proof.
  intros [v Hl]. unfold acquire_lock, bind, time_time, connection_set_nx, update, ret.
  simpl. rewrite Hl. reflexivity.
Qed.

Lemma remove_lock_held (w : World) :
  _lock_acquired (process w) = true →
  remove_lock w = (Returned tt, with_redis (with_scheduler_lock (λ _, None)) w).
Proof.
  intros Hh. unfold remove_lock, bind, read. rewrite Hh. reflexivity.
Qed.

Lemma remove_lock_not_held (w : World) :
  _lock_acquired (process w) = false → remove_lock w = (Returned tt, w).
Proof.
  intros Hh. unfold remove_lock, bind, read. rewrite Hh. reflexivity.
Qed.

(** X1. [acquire_lock] returns [True] exactly when the lock key is not
    set, and then sets it to the time read from the clock, to expire
    after [int(interval) + 10] seconds; when the key is set it returns
    a false value and writes nothing.  After either, the key is set, so
    a further [acquire_lock], by any scheduler object in any process on
    the same store, returns a false value: of two attempts with no
    deletion in between at most the first succeeds. *)
Theorem acquire_lock_exclusive (self self' : Scheduler) (w : World) (p' : Process) :
  let w1 := snd (acquire_lock self w) in
  (fst (acquire_lock self w) = Returned true ↔ scheduler_lock (redis w) = None)
  ∧ (fst (acquire_lock self w) = Returned false
     ↔ is_Some (scheduler_lock (redis w)))
  ∧ (is_Some (scheduler_lock (redis w)) → redis w1 = redis w)
  ∧ (scheduler_lock (redis w) = None →
       scheduler_lock (redis w1)
       = Some (time_at (clock_reads (process w)), py_int (_interval self) + 10))
  ∧ fst (acquire_lock self w) = Returned (_lock_acquired (process w1))
  ∧ fst (acquire_lock self' (mkWorld (redis w1) p')) = Returned false
  ∧ redis (snd (acquire_lock self' (mkWorld (redis w1) p'))) = redis w1.
Proof.
  intros w1. subst w1.
  destruct (scheduler_lock (redis w)) as [v|] eqn:Hl.
  - assert (Hs : is_Some (scheduler_lock (redis w))) by (rewrite Hl; eexists; reflexivity).
    rewrite (acquire_lock_taken self w Hs). cbn [fst snd redis process].
    rewrite (acquire_lock_taken self' (mkWorld (redis w) p')) by exact Hs. simpl.
    split; [split; discriminate|].
    split; [split; [intros _; eexists; reflexivity|reflexivity]|].
    repeat split; try reflexivity. discriminate.
  - rewrite (acquire_lock_free self w Hl). cbn [fst snd redis process].
    rewrite acquire_lock_taken by (simpl; eexists; reflexivity). simpl.
    split; [split; reflexivity|].
    split; [split; [discriminate|intros [x Hx]; discriminate Hx]|].
    split; [intros [x Hx]; discriminate Hx|].
    repeat split; reflexivity.
Qed.

(** X2. [remove_lock] deletes the lock key only when the last
    [acquire_lock] of this scheduler succeeded.  After a failed
    [acquire_lock] it leaves the store as it is, so it never deletes a
    lock another scheduler holds; after a successful one it frees the
    key.  A scheduler that acquires the lock and then tries again, which
    fails because its own key is still set, no longer deletes it: its
    lock stays in the store. *)
Theorem remove_lock_only_own (self : Scheduler) (w : World) :
  (is_Some (scheduler_lock (redis w)) →
     fst ((acquire_lock self >> remove_lock) w) = Returned tt
     ∧ redis (snd ((acquire_lock self >> remove_lock) w)) = redis w)
  ∧ (scheduler_lock (redis w) = None →
       fst ((acquire_lock self >> remove_lock) w) = Returned tt
       ∧ redis (snd ((acquire_lock self >> remove_lock) w)) = redis w)
  ∧ (scheduler_lock (redis w) = None →
       fst ((acquire_lock self >> acquire_lock self >> remove_lock) w) = Returned tt
       ∧ scheduler_lock
           (redis (snd ((acquire_lock self >> acquire_lock self >> remove_lock) w)))
         = Some (time_at (clock_reads (process w)), py_int (_interval self) + 10)).
Proof.
  split; [|split].
  - intros Hs. unfold bind. rewrite (acquire_lock_taken self w Hs).
    rewrite remove_lock_not_held by reflexivity. split; reflexivity.
  - intros Hl. unfold bind. rewrite (acquire_lock_free self w Hl).
    rewrite remove_lock_held by reflexivity. simpl. split; [reflexivity|].
    unfold with_scheduler_lock. simpl. rewrite <- Hl. apply redis_eta.
  - intros Hl. unfold bind. rewrite (acquire_lock_free self w Hl).
    rewrite acquire_lock_taken by (simpl; eexists; reflexivity).
    rewrite remove_lock_not_held by reflexivity. split; reflexivity.
Qed.

(** ** The liveness record *)

Lemma register_death_run (w : World) :
  register_death w
  = (Returned tt,
     mkWorld (with_scheduler_hash (dead (time_at (clock_reads (process w)))) (redis w))
             (tick (process w))).
Proof.
  unfold register_death, bind, time_time, connection_hset, connection_expire, update.
  simpl. unfold with_redis, with_scheduler_hash. simpl.
  destruct (scheduler_hash (redis w)); reflexivity.
Qed.

Lemma register_death_not_live (w : World) : ¬ live (snd (register_death w)).
Proof.
  rewrite register_death_run. simpl. intros (h & Hh & Hd).
  unfold dead in Hh. injection Hh as <-. simpl in Hd.
  rewrite lookup_insert_eq in Hd. discriminate.
Qed.

(** X3. The life of the liveness record.  After a [register_birth] that
    went through, the record is live and a second [register_birth] raises
    and writes nothing.  [register_death] adds the field [death], read
    from the clock, keeps [birth] and sets the expiry to 60 seconds; the
    record is then not live, whatever it was before, and
    [register_birth] goes through again. *)
Theorem liveness_cycle (self : Scheduler) (w : World) :
  ¬ live w →
  let w1 := snd (register_birth self w) in
  let w2 := snd (register_death w1) in
  live w1
  ∧ register_birth self w1 = (Raised already_running, w1)
  ∧ scheduler_hash (redis w2)
    = Some (mkLiveness (<["death" := time_at (S (clock_reads (process w)))]>
                          {["birth" := time_at (clock_reads (process w))]})
                       (Some 60))
  ∧ ¬ live w2
  ∧ fst (register_birth self w2) = Returned tt
  ∧ ∀ w0, ¬ live (snd (register_death w0))
          ∧ fst (register_birth self (snd (register_death w0))) = Returned tt.
Proof.
  intros Hn w1 w2. subst w2 w1.
  assert (Hgen : ∀ w0, ¬ live (snd (register_death w0))
                       ∧ fst (register_birth self (snd (register_death w0))) = Returned tt).
  { intros w0. pose proof (register_death_not_live w0) as Hd.
    split; [exact Hd|]. rewrite (register_birth_not_live _ _ Hd). reflexivity. }
  rewrite (register_birth_not_live self w Hn). cbn [snd].
  set (wb := mkWorld _ _).
  assert (Hl : live wb).
  { eexists. split; [reflexivity|]. simpl. apply lookup_singleton_ne. discriminate. }
  split; [exact Hl|].
  split; [apply register_birth_live, Hl|].
  split; [rewrite register_death_run; reflexivity|].
  split; [apply Hgen|].
  split; [apply Hgen|exact Hgen].
Qed.

(** ** Creating and scheduling jobs *)

Lemma create_job_run (self : Scheduler) (f : string) (a : option (list string))
    (kw : option (list (string * string))) (commit : bool) (rttl t : option Z)
    (i d qn : option string) (tmo : option Z) (w : World) :
  let job := mkJob (drawn_id i w) (or_default qn (queue_name self)) f
                   (default [] a) (default [] kw) rttl t tmo d (mkMeta None None None) in
  _create_job self f a kw commit rttl t i d qn tmo w
  = (Returned job,
     mkWorld (if commit then with_job_hashes (<[drawn_id i w := job]>) (redis w)
              else redis w)
             (after_draw i (process w))).
Proof.
  unfold _create_job, Job_create, bind, uuid4, ret, Job_save, update.
  destruct w as [r p], i as [x|], commit; reflexivity.
Qed.

(** X4. A call of [schedule] that is not refused (no [repeat], a [repeat]
    of 0, or an [interval]) returns a job that carries the interval and
    the repeat count in its [meta], with [result_ttl] -1 when an interval
    is given and no [result_ttl]; the job is saved, so [Job.fetch] gives
    it back, and it has exactly one entry in the schedule store, at the
    given time, so it is contained in the scheduler; the entries of
    other ids are as before. *)
Theorem schedule_accepted (self : Scheduler) (scheduled_time : datetime)
    (f : string) (a : option (list string)) (kw : option (list (string * string)))
    (interval repeat : option Z) (rttl t tmo : option Z)
    (i d qn : option string) (w : World) :
  truthy_int repeat = false ∨ interval ≠ None →
  ∃ job w',
    schedule self scheduled_time f a kw interval repeat rttl t tmo i d qn w
    = (Returned job, w')
    ∧ job_id job = drawn_id i w
    ∧ origin job = or_default qn (queue_name self)
    ∧ meta job = mkMeta interval repeat None
    ∧ result_ttl job = match interval, rttl with
                       | Some _, None => Some (-1)
                       | _, _ => rttl
                       end
    ∧ Job_fetch (job_id job) w' = (Returned job, w')
    ∧ contains (ByJob job) w' = (Returned true, w')
    ∧ ZSet.zscore (job_id job) (scheduled_jobs (redis w')) = Some (to_unix scheduled_time)
    ∧ ZSet.occurrences (job_id job) (scheduled_jobs (redis w')) = 1%nat
    ∧ ∀ m, m ≠ job_id job →
        ZSet.zscore m (scheduled_jobs (redis w'))
        = ZSet.zscore m (scheduled_jobs (redis w))
        ∧ job_hashes (redis w') !! m = job_hashes (redis w) !! m.
Proof.
  intros Hok.
  assert (Hgo : truthy_int repeat && bool_decide (interval = None) = false).
  { destruct Hok as [Hr|Hi]; [rewrite Hr; reflexivity|].
    rewrite (bool_decide_eq_false_2 _ Hi). apply andb_false_r. }
  unfold schedule, bind at 1. rewrite create_job_run. cbn [fst snd].
  rewrite Hgo. unfold bind, Job_save, connection_zadd, update, ret. simpl.
  eexists _, _. split; [reflexivity|].
  assert (Hz : ∀ x, bool_decide (Some x ≠ @None Z) = true)
    by (intros x; apply bool_decide_eq_true_2; discriminate).
  destruct interval as [iv|], repeat as [r|]; simpl;
    (split; [reflexivity|]); (split; [reflexivity|]); (split; [reflexivity|]);
    (split; [reflexivity|]);
    (split; [unfold Job_fetch; simpl; rewrite lookup_insert_eq; reflexivity|]);
    (split; [unfold contains, bind, connection_zscore, read, ret; simpl;
             rewrite ZSetFacts.zscore_zadd_eq, Hz; reflexivity|]);
    (split; [apply ZSetFacts.zscore_zadd_eq|]);
    (split; [apply ZSetFacts.occurrences_zadd_eq|]);
    intros m Hm;
    (split; [apply ZSetFacts.zscore_zadd_ne; congruence
            |apply lookup_insert_ne; congruence]).
Qed.

Lemma cron_run (self : Scheduler) (cron_string f : string)
    (a : option (list string)) (kw : option (list (string * string)))
    (repeat : option Z) (qn i : option string) (tmo : option Z)
    (d : option string) (w : World) :
  cron self cron_string f a kw repeat qn i tmo d w
  = match get_next_scheduled_time cron_string (utcnow_at (clock_reads (process w))) with
    | inl e => (Raised e, with_process tick w)
    | inr next =>
        let job0 := mkJob (drawn_id i w) (or_default qn (queue_name self)) f
                          (default [] a) (default [] kw) (Some (-1)) None tmo d
                          (mkMeta None None (Some cron_string)) in
        let job := match repeat with
                   | Some v => meta_set_repeat v job0
                   | None => job0
                   end in
        (Returned job,
         mkWorld (with_scheduled_jobs (ZSet.zadd (to_unix next) (drawn_id i w))
                    (with_job_hashes (<[drawn_id i w := job]>) (redis w)))
                 (after_draw i (tick (process w))))
    end.
Proof.
  unfold cron, bind at 1, utcnow.
  destruct (get_next_scheduled_time cron_string _) as [e|next]; [reflexivity|].
  unfold bind at 1. rewrite create_job_run.
  unfold bind, Job_save, connection_zadd, update, ret.
  destruct repeat, i; reflexivity.
Qed.

(** X5. [cron] computes the next time before it creates anything: when
    the expression cannot be evaluated the exception comes out of [cron]
    with the store as it was, no job record saved and no entry added.
    When it can, the job returned carries the expression in its [meta]
    with the repeat count, has [result_ttl] -1, is saved, and has exactly
    one entry, at the next time after the clock reading. *)
Theorem cron_fails_fast (self : Scheduler) (cron_string f : string)
    (a : option (list string)) (kw : option (list (string * string)))
    (repeat : option Z) (qn i : option string) (tmo : option Z)
    (d : option string) (w : World) :
  let now := utcnow_at (clock_reads (process w)) in
  let res := cron self cron_string f a kw repeat qn i tmo d w in
  (∀ e, get_next_scheduled_time cron_string now = inl e →
        fst res = Raised e ∧ redis (snd res) = redis w)
  ∧ (∀ next, get_next_scheduled_time cron_string now = inr next →
       ∃ job, fst res = Returned job
         ∧ meta job = mkMeta None repeat (Some cron_string)
         ∧ result_ttl job = Some (-1)
         ∧ job_hashes (redis (snd res)) !! job_id job = Some job
         ∧ ZSet.zscore (job_id job) (scheduled_jobs (redis (snd res)))
           = Some (to_unix next)
         ∧ ZSet.occurrences (job_id job) (scheduled_jobs (redis (snd res))) = 1%nat).
Proof.
  intros now res. subst res now. rewrite cron_run. split.
  - intros e He. rewrite He. split; reflexivity.
  - intros next Hn. rewrite Hn. cbn [fst snd].
    eexists. split; [reflexivity|].
    destruct repeat as [r|]; simpl;
      (split; [reflexivity|]); (split; [reflexivity|]);
      (split; [apply lookup_insert_eq|]);
      (split; [apply ZSetFacts.zscore_zadd_eq|apply ZSetFacts.occurrences_zadd_eq]).
Qed.

(** ** Listing jobs *)

Lemma get_jobs_served (until : option (until_arg datetime timedelta))
    (with_times : bool) (offset length : option Z) (w : World) (es : ZSet.t) :
  ZSet.zrangebyscore 0 (rationalize_until until) offset length
                     (scheduled_jobs (redis w)) = inr es →
  get_jobs until with_times offset length w
  = (Returned (fetched (job_hashes (redis w)) (job_items with_times es)),
     with_redis (with_scheduled_jobs
                   (purged (job_hashes (redis w)) (ZSet.member <$> es))) w).
Proof.
  intros Hes. unfold get_jobs, bind, connection_zrangebyscore. rewrite Hes.
  rewrite get_jobs_loop_run. unfold job_items.
  rewrite <- list_fmap_compose. reflexivity.
Qed.

Lemma get_jobs_refused (until : option (until_arg datetime timedelta))
    (with_times : bool) (offset length : option Z) (w : World) (e : py_exn) :
  ZSet.zrangebyscore 0 (rationalize_until until) offset length
                     (scheduled_jobs (redis w)) = inl e →
  get_jobs until with_times offset length w = (Raised e, w).
Proof.
  intros Hes. unfold get_jobs, bind, connection_zrangebyscore. rewrite Hes.
  reflexivity.
Qed.

Lemma fetched_listed (jh : gmap string Job) (with_times : bool) (es : ZSet.t) :
  Forall2 (listed jh with_times) (filter (recorded jh) es)
          (fetched jh (job_items with_times es)).
Proof.
  induction es as [|e es IH]; [constructor|].
  unfold job_items. rewrite fmap_cons, fetched_cons.
  fold (job_items with_times es). unfold recorded in *.
  destruct (jh !! ZSet.member e) as [j|] eqn:Hj.
  - rewrite filter_cons_True by (rewrite Hj; discriminate).
    constructor; [|exact IH]. exists j. split; [exact Hj|reflexivity].
  - rewrite filter_cons_False by (rewrite Hj; tauto). exact IH.
Qed.

Lemma fetched_elem (jh : gmap string Job) (with_times : bool) (es : ZSet.t)
    (x : Job * option datetime) :
  x ∈ fetched jh (job_items with_times es) ↔ ∃ e, e ∈ es ∧ listed jh with_times e x.
Proof.
  unfold fetched, job_items. rewrite list_elem_of_omap. split.
  - intros (it & Hit & Hx). apply list_elem_of_fmap in Hit as (e & -> & He).
    exists e. split; [exact He|]. simpl in Hx.
    destruct (jh !! ZSet.member e) as [j|] eqn:Hj; [|discriminate].
    injection Hx as <-. exists j. split; [exact Hj|reflexivity].
  - intros (e & He & j & Hj & ->). eexists. split.
    + apply list_elem_of_fmap_2, He.
    + simpl. rewrite Hj. reflexivity.
Qed.

Lemma elem_of_purged (jh : gmap string Job) (ids : list string) (s : ZSet.t)
    (e : ZSet.entry) :
  e ∈ purged jh ids s ↔ e ∈ s ∧ ¬ (ZSet.member e ∈ ids ∧ jh !! ZSet.member e = None).
Proof. unfold purged. rewrite list_elem_of_filter. tauto. Qed.

(** X6. [get_jobs(until, with_times)] returns one item for every entry of
    the schedule store with a score from 0 to the bound whose job record
    exists, in the order of the store: the record saved under the entry's
    member, with [from_unix] of the score under [with_times].  When the
    store is in ascending order so are these entries.  The entries it
    removes are those of the members in the range without a record; the
    job records are left alone. *)
Theorem get_jobs_listing (until : option (until_arg datetime timedelta))
    (with_times : bool) (w : World) :
  ∃ l w',
    get_jobs until with_times None None w = (Returned l, w')
    ∧ Forall2 (listed (job_hashes (redis w)) with_times)
              (filter (recorded (job_hashes (redis w))) (due until w)) l
    ∧ (ZSet.sorted (scheduled_jobs (redis w)) →
         ZSet.sorted (filter (recorded (job_hashes (redis w))) (due until w)))
    ∧ (∀ e, e ∈ scheduled_jobs (redis w')
            ↔ e ∈ scheduled_jobs (redis w)
              ∧ ¬ (ZSet.member e ∈ ZSet.member <$> due until w ∧ orphaned w e))
    ∧ job_hashes (redis w') = job_hashes (redis w)
    ∧ queues (redis w') = queues (redis w)
    ∧ process w' = process w.
Proof.
  eexists _, _. split; [apply get_jobs_run|].
  split; [apply fetched_listed|].
  split.
  { intros Hs. unfold due. apply ZSetFacts.sorted_filter, ZSetFacts.sorted_filter, Hs. }
  split; [intros e; apply elem_of_purged|].
  repeat split; reflexivity.
Qed.

Lemma elem_of_limit (o n : Z) (l : ZSet.t) (e : ZSet.entry) :
  e ∈ ZSet.limit o n l → e ∈ l.
Proof.
  unfold ZSet.limit. destruct (o <? 0); [intros H; inversion H|].
  destruct (n <? 0); intros H.
  - apply (subseteq_drop _ _ _ H).
  - apply (subseteq_drop (Z.to_nat o)), (subseteq_take (Z.to_nat n)), H.
Qed.

Lemma length_limit (o n : Z) (l : ZSet.t) :
  0 ≤ n → (length (ZSet.limit o n l) ≤ Z.to_nat n)%nat.
Proof.
  intros Hn. unfold ZSet.limit. destruct (o <? 0); [simpl; lia|].
  destruct (n <? 0) eqn:Hneg; [apply Z.ltb_lt in Hneg; lia|].
  rewrite length_take. lia.
Qed.

Lemma length_fetched_le (jh : gmap string Job) (with_times : bool) (es : ZSet.t) :
  (length (fetched jh (job_items with_times es)) ≤ length es)%nat.
Proof. rewrite length_fetched. apply length_filter. Qed.

(** X7. [get_jobs] with an offset and no length, or a length and no
    offset, raises, and the store is as it was.  With both, it returns at
    most [length] items when the length is not negative, every one of
    them an item of the listing without offset and length, and it
    returns nothing and changes nothing when the offset is negative. *)
Theorem get_jobs_offset_length (until : option (until_arg datetime timedelta))
    (with_times : bool) (w : World) :
  (∀ o, get_jobs until with_times (Some o) None w = (Raised start_num_error, w))
  ∧ (∀ n, get_jobs until with_times None (Some n) w = (Raised start_num_error, w))
  ∧ ∀ o n, ∃ l w',
      get_jobs until with_times (Some o) (Some n) w = (Returned l, w')
      ∧ (0 ≤ n → (length l ≤ Z.to_nat n)%nat)
      ∧ (o < 0 → l = [] ∧ w' = w)
      ∧ ∀ x, x ∈ l →
          ∃ l0 w0, get_jobs until with_times None None w = (Returned l0, w0)
                   ∧ x ∈ l0.
Proof.
  split; [intros o; apply get_jobs_refused; reflexivity|].
  split; [intros n; apply get_jobs_refused; reflexivity|].
  intros o n. eexists _, _.
  split; [apply get_jobs_served; reflexivity|].
  split; [|split].
  - intros Hn. etransitivity; [apply length_fetched_le|]. apply length_limit, Hn.
  - intros Ho. apply Z.ltb_lt in Ho. unfold ZSet.limit. rewrite Ho. simpl.
    split; [reflexivity|].
    unfold with_redis, with_scheduled_jobs. rewrite purged_nil, redis_eta.
    apply world_eta.
  - intros x Hx. eexists _, _. split; [apply get_jobs_run|].
    apply fetched_elem in Hx as (e & He & Hl).
    apply fetched_elem. exists e. split; [|exact Hl].
    apply (elem_of_limit _ _ _ _ He).
Qed.



(** ** From scheduling to listing to cancelling *)

Lemma contains_run (item : job_ref) (w : World) :
  contains item w
  = (Returned (bool_decide (ZSet.zscore (ref_id item) (scheduled_jobs (redis w)) ≠ None)),
     w).
Proof. reflexivity. Qed.

(** X9. A job pushed with [enqueue_at] under an id is saved and
    scheduled: [Job.fetch] gives it back, the scheduler contains it, and
    when its time is not before the epoch and not after the bound,
    [get_jobs] lists it.  Once cancelled it is no longer contained and
    [get_jobs] lists no job of that id, while its record stays. *)
Theorem enqueue_at_listed (self : Scheduler) (scheduled_time : datetime)
    (f : string) (a : list string) (kw : list (string * string))
    (tmo : option Z) (i : string) (job_ttl job_result_ttl : option Z)
    (until : option (until_arg datetime timedelta)) (w : World) :
  ∃ job w1,
    enqueue_at self scheduled_time f a kw tmo (Some i) job_ttl job_result_ttl w
    = (Returned job, w1)
    ∧ job_id job = i
    ∧ Job_fetch i w1 = (Returned job, w1)
    ∧ contains (ByJob job) w1 = (Returned true, w1)
    ∧ (0 ≤ to_unix scheduled_time →
       ZSet.below (rationalize_until until) (to_unix scheduled_time) →
       ∃ l w2, get_jobs until false None None w1 = (Returned l, w2)
               ∧ (job, None) ∈ l)
    ∧ let w3 := snd (cancel (ByJob job) w1) in
      fst (contains (ById i) w3) = Returned false
      ∧ job_hashes (redis w3) !! i = Some job
      ∧ ∃ l w4, get_jobs until false None None w3 = (Returned l, w4)
                ∧ ∀ item, item ∈ l → job_id (fst item) ≠ i.
Proof.
  eexists _, _. split; [apply enqueue_at_run|].
  split; [reflexivity|].
  split.
  { unfold Job_fetch. simpl. rewrite lookup_insert_eq. reflexivity. }
  split.
  { rewrite contains_run. simpl. rewrite ZSetFacts.zscore_zadd_eq.
    rewrite bool_decide_eq_true_2 by discriminate. reflexivity. }
  split.
  - intros H0 Hb. eexists _, _. split; [apply get_jobs_run|].
    apply fetched_elem. exists (i, to_unix scheduled_time). split.
    + unfold due. apply list_elem_of_filter. split; [split; assumption|].
      simpl. unfold ZSet.zadd. apply ZSetFacts.elem_of_place. left. reflexivity.
    + eexists. split; [simpl; apply lookup_insert_eq|reflexivity].
  - rewrite cancel_run. cbn [snd]. simpl.
    split.
    { rewrite ZSetFacts.zscore_zrem_eq.
      rewrite bool_decide_eq_false_2 by (intros H; apply H; reflexivity).
      reflexivity. }
    split; [apply lookup_insert_eq|].
    eexists _, _. split; [apply get_jobs_run|].
    intros item Hitem. apply fetched_elem in Hitem as (e & He & j & _ & ->).
    simpl. unfold due in He. apply list_elem_of_filter in He as [_ He].
    simpl in He. apply ZSetFacts.elem_of_zrem in He as [_ Hne]. exact Hne.
Qed.

End MoreFacts.

Section EnqueueInFacts.

Context {U : Utils} {E : Env}.

Variable datetime_add : datetime → timedelta → datetime.

Lemma enqueue_in_run (self : Scheduler) (time_delta : timedelta) (f : string)
    (a : list string) (kw : list (string * string)) (tmo : option Z)
    (jid : option string) (job_ttl job_result_ttl : option Z) (w : World) :
  let job := mkJob (drawn_id jid w) (or_default None (queue_name self)) f a kw
                   job_result_ttl job_ttl tmo None (mkMeta None None None) in
  enqueue_in datetime_add self time_delta f a kw tmo jid job_ttl job_result_ttl w
  = (Returned job,
     mkWorld
       (with_scheduled_jobs
          (ZSet.zadd (to_unix (datetime_add (utcnow_at (clock_reads (process w)))
                                            time_delta))
                     (drawn_id jid w))
          (with_job_hashes (<[drawn_id jid w := job]>) (redis w)))
       (tick (after_draw jid (process w)))).
Proof.
  unfold enqueue_in, bind at 1. rewrite create_job_run.
  unfold bind, utcnow, connection_zadd, update, ret.
  destruct jid; reflexivity.
Qed.

(** X10. [enqueue_in] schedules the job at the clock reading plus the
    delta: it reads the clock once, saves the job, which [Job.fetch] then
    gives back, and leaves exactly one entry for the job, at
    [to_unix(utcnow + delta)]; a job already scheduled under the same id
    is moved to that time.  The entries of other ids are as before. *)
Theorem enqueue_in_scheduled (self : Scheduler) (time_delta : timedelta)
    (f : string) (a : list string) (kw : list (string * string)) (tmo : option Z)
    (jid : option string) (job_ttl job_result_ttl : option Z) (w : World) :
  ∃ job w',
    enqueue_in datetime_add self time_delta f a kw tmo jid job_ttl job_result_ttl w
    = (Returned job, w')
    ∧ job_id job = drawn_id jid w
    ∧ clock_reads (process w') = S (clock_reads (process w))
    ∧ Job_fetch (job_id job) w' = (Returned job, w')
    ∧ ZSet.zscore (job_id job) (scheduled_jobs (redis w'))
      = Some (to_unix (datetime_add (utcnow_at (clock_reads (process w))) time_delta))
    ∧ ZSet.occurrences (job_id job) (scheduled_jobs (redis w')) = 1%nat
    ∧ ∀ m, m ≠ job_id job →
        ZSet.zscore m (scheduled_jobs (redis w'))
        = ZSet.zscore m (scheduled_jobs (redis w))
        ∧ ZSet.occurrences m (scheduled_jobs (redis w'))
          = ZSet.occurrences m (scheduled_jobs (redis w)).
Proof.
  eexists _, _. split; [apply enqueue_in_run|].
  split; [reflexivity|].
  split; [destruct jid; reflexivity|].
  split.
  { unfold Job_fetch. simpl. rewrite lookup_insert_eq. reflexivity. }
  split; [apply ZSetFacts.zscore_zadd_eq|].
  split; [apply ZSetFacts.occurrences_zadd_eq|].
  intros m Hm. simpl in Hm. split.
  - apply ZSetFacts.zscore_zadd_ne. congruence.
  - apply ZSetFacts.occurrences_zadd_ne. congruence.
Qed.

End EnqueueInFacts.

Section FiringFacts.

Context {U : Utils} {E : Env}.

(** ** Firing a job *)

Lemma pushes_own (job : Job) (w w' : World) :
  queues (redis w') = queues (dispatched job (redis w)) →
  pushes (job_id job) (origin job) w' = S (pushes (job_id job) (origin job) w).
Proof.
  intros Hq. unfold pushes, queue_of. rewrite Hq. simpl.
  rewrite lookup_insert_eq. simpl. rewrite filter_app, length_app.
  rewrite filter_cons_True by reflexivity. simpl. lia.
Qed.

(** When [enqueue_job] returns, the job has gone to its queue. *)
Lemma enqueue_job_returned (job y : Job) (w w' : World) :
  enqueue_job job w = (Returned y, w') →
  y = fired job
  ∧ enqueue_fails (fired job) = false
  ∧ queues (redis w') = queues (dispatched (fired job) (redis w))
  ∧ job_hashes (redis w') = job_hashes (dispatched (fired job) (redis w)).
Proof.
  unfold enqueue_job, bind, get_queue_for_job, ret, Queue_enqueue_job.
  fold (fired job).
  destruct (enqueue_fails (fired job)); [discriminate|]. simpl.
  destruct (truthy_int (meta_interval (meta job))).
  - destruct (_ && _); simpl; intros [= <- <-]; repeat split; reflexivity.
  - destruct (truthy_str (meta_cron_string (meta job))); simpl.
    + destruct (_ && _); simpl; [intros [= <- <-]; repeat split; reflexivity|].
      destruct (get_next_scheduled_time _ _); simpl; [discriminate|].
      intros [= <- <-]; repeat split; reflexivity.
    + intros [= <- <-]; repeat split; reflexivity.
Qed.

Lemma enqueue_job_frame_hashes (job : Job) (w : World) (m : string) :
  m ≠ job_id job →
  job_hashes (redis (snd (enqueue_job job w))) !! m = job_hashes (redis w) !! m.
Proof.
  intros Hne.
  destruct (enqueue_job_shape job w) as [Hr|[Hr|[sc Hr]]]; rewrite Hr;
    [reflexivity| |]; simpl; rewrite fired_id;
    apply lookup_insert_ne; congruence.
Qed.

(** X11. The firing of a cron job: a job whose interval is unset or 0,
    with a cron expression, whose repeat counter has not reached 0.  When
    the next time can be computed the job goes to its queue and is put
    back at that time.  When the expression cannot be evaluated the
    exception comes out of [enqueue_job] after the job has gone to its
    queue and left the schedule store: it has been dispatched once and
    has no entry any more. *)
Theorem cron_firing (job : Job) (c : string) (w : World) :
  enqueue_fails (fired job) = false →
  truthy_int (meta_interval (meta job)) = false →
  meta_cron_string (meta job) = Some c → c ≠ "" →
  meta_repeat (meta (fired job)) ≠ Some 0 →
  let now := utcnow_at (clock_reads (process w)) in
  (∀ next, get_next_scheduled_time c now = inr next →
     enqueue_job job w
     = (Returned (fired job),
        mkWorld (with_scheduled_jobs (ZSet.zadd (to_unix next) (job_id job))
                                     (dispatched (fired job) (redis w)))
                (tick (process w)))
     ∧ ZSet.zscore (job_id job) (scheduled_jobs (redis (snd (enqueue_job job w))))
       = Some (to_unix next))
  ∧ (∀ e, get_next_scheduled_time c now = inl e →
       enqueue_job job w
       = (Raised e, mkWorld (dispatched (fired job) (redis w)) (tick (process w)))
       ∧ ZSet.zscore (job_id job) (scheduled_jobs (redis (snd (enqueue_job job w))))
         = None
       ∧ pushes (job_id job) (origin job) (snd (enqueue_job job w))
         = S (pushes (job_id job) (origin job) w)).
Proof.
  intros Hf Hi Hc Hne Hz now. subst now.
  assert (Hts : truthy_str (meta_cron_string (meta job)) = true).
  { rewrite Hc. simpl. apply String.eqb_neq in Hne. rewrite Hne. reflexivity. }
  assert (Hrun : enqueue_job job w
    = match get_next_scheduled_time c (utcnow_at (clock_reads (process w))) with
      | inl e => (Raised e, mkWorld (dispatched (fired job) (redis w)) (tick (process w)))
      | inr next =>
          (Returned (fired job),
           mkWorld (with_scheduled_jobs (ZSet.zadd (to_unix next) (job_id job))
                                        (dispatched (fired job) (redis w)))
                   (tick (process w)))
      end).
  { unfold enqueue_job, bind, get_queue_for_job, ret, Queue_enqueue_job.
    fold (fired job). rewrite Hf, Hi, Hts. simpl.
    rewrite (bool_decide_eq_false_2 _ Hz), andb_false_r, Hc. simpl.
    unfold dispatched. rewrite !fired_id.
    destruct (get_next_scheduled_time c _); reflexivity. }
  split.
  - intros next Hn. rewrite Hrun, Hn. split; [reflexivity|].
    apply ZSetFacts.zscore_zadd_eq.
  - intros e He. rewrite Hrun, He. split; [reflexivity|]. split.
    + simpl. rewrite fired_id. apply ZSetFacts.zscore_zrem_eq.
    + rewrite <- (fired_id job), <- (fired_origin job).
      apply pushes_own. reflexivity.
Qed.

(** X12. The firing of a job without recurrence: with an interval unset
    or 0 and a cron expression unset or empty, whatever its repeat
    counter, the job goes to its queue once, is saved as the queue took
    it, and leaves the schedule store, so the scheduler does not contain
    it any more; the clock is not read. *)
Theorem one_shot_firing (job : Job) (w : World) :
  enqueue_fails (fired job) = false →
  truthy_int (meta_interval (meta job)) = false →
  truthy_str (meta_cron_string (meta job)) = false →
  let w' := snd (enqueue_job job w) in
  enqueue_job job w
  = (Returned (fired job), mkWorld (dispatched (fired job) (redis w)) (process w))
  ∧ fst (contains (ByJob job) w') = Returned false
  ∧ pushes (job_id job) (origin job) w' = S (pushes (job_id job) (origin job) w)
  ∧ job_hashes (redis w') !! job_id job = Some (fired job).
Proof.
  intros Hf Hi Hc w'. subst w'.
  assert (Hrun : enqueue_job job w
    = (Returned (fired job), mkWorld (dispatched (fired job) (redis w)) (process w))).
  { unfold enqueue_job, bind, get_queue_for_job, ret, Queue_enqueue_job.
    fold (fired job). rewrite Hf, Hi, Hc. reflexivity. }
  rewrite Hrun. split; [reflexivity|]. cbn [snd]. split; [|split].
  - rewrite contains_run. simpl. rewrite fired_id, ZSetFacts.zscore_zrem_eq.
    rewrite bool_decide_eq_false_2 by (intros H; apply H; reflexivity).
    reflexivity.
  - rewrite <- (fired_id job), <- (fired_origin job). apply pushes_own. reflexivity.
  - simpl. rewrite fired_id, lookup_insert_eq, set_origin_same. reflexivity.
Qed.

Lemma fired_unbounded (job : Job) :
  unbounded (meta_repeat (meta job)) →
  unbounded (meta_repeat (meta (fired job)))
  ∧ meta_repeat (meta (fired job)) ≠ Some 0
  ∧ (meta_repeat (meta job) = None → fired job = job)
  ∧ (∀ n, meta_repeat (meta job) = Some n →
          meta_repeat (meta (fired job)) = Some (n - 1)).
Proof.
  unfold unbounded, fired.
  destruct (meta_repeat (meta job)) as [n|] eqn:Hr; simpl.
  - intros Hn. assert (Hnz : (n =? 0) = false) by (apply Z.eqb_neq; lia).
    rewrite Hnz. simpl.
    split; [lia|]. split; [intros [= Hz]; lia|].
    split; [discriminate|]. intros n' [= <-]. reflexivity.
  - intros _. rewrite Hr.
    split; [exact I|]. split; [discriminate|].
    split; [reflexivity|]. intros n Hn. discriminate Hn.
Qed.

Lemma fire_times_unbounded (i : string) (iv : Z) (k : nat) :
  ∀ (job : Job) (w : World),
    (∀ j, job_id j = i → enqueue_fails j = false) →
    iv ≠ 0 →
    job_hashes (redis w) !! i = Some job → job_id job = i →
    meta_interval (meta job) = Some iv →
    unbounded (meta_repeat (meta job)) →
    ∃ w' job',
      fire_times k i w = (Returned tt, w')
      ∧ queue_of (origin job) w' = (queue_of (origin job) w ++ replicate k i)%list
      ∧ ((0 < k)%nat → is_Some (ZSet.zscore i (scheduled_jobs (redis w'))))
      ∧ job_hashes (redis w') !! i = Some job'
      ∧ (meta_repeat (meta job) = None → job' = job)
      ∧ (∀ n, meta_repeat (meta job) = Some n →
              meta_repeat (meta job') = Some (n - Z.of_nat k)).
Proof.
  induction k as [|k IH]; intros job w Hok Hiv Hst Hid Hint Hun.
  - exists w, job. simpl. rewrite app_nil_r.
    split; [reflexivity|]. split; [reflexivity|]. split; [lia|].
    split; [exact Hst|]. split; [reflexivity|].
    intros n Hn. rewrite Hn. f_equal. lia.
  - destruct (fired_unbounded job Hun) as (Hun' & Hz & Hnone & Hsome).
    assert (Hf : enqueue_fails (fired job) = false).
    { apply Hok. rewrite fired_id. exact Hid. }
    simpl. unfold bind at 1, Job_fetch. rewrite Hst.
    rewrite (set_id_same _ _ Hid). unfold bind at 1.
    rewrite (enqueue_job_reinserted job iv w Hf Hint Hiv Hz).
    set (w1 := mkWorld _ _).
    destruct (IH (fired job) w1) as (w' & job' & Hrun & Hq & Hs & Hst' & Hn' & Hs');
      try assumption.
    + subst w1. simpl. rewrite fired_id, Hid, lookup_insert_eq, set_origin_same.
      reflexivity.
    + rewrite fired_id. exact Hid.
    + rewrite fired_interval. exact Hint.
    + exists w', job'. split; [exact Hrun|].
      rewrite fired_origin in Hq.
      split.
      { rewrite Hq. subst w1. rewrite <- (fired_origin job) at 1.
        rewrite (queue_of_dispatched (fired job) w) by reflexivity.
        rewrite fired_id, Hid, fired_origin, <- app_assoc. reflexivity. }
      split.
      { intros _. destruct k as [|k].
        - simpl in Hrun. injection Hrun as <-. subst w1. simpl. rewrite Hid.
          rewrite ZSetFacts.zscore_zadd_eq. eexists. reflexivity.
        - apply Hs. lia. }
      split; [exact Hst'|]. split.
      { intros Hnone'. pose proof (Hnone Hnone') as Hsame.
        rewrite Hsame in Hn'. apply Hn', Hnone'. }
      intros n Hn. rewrite (Hs' (n - 1) (Hsome n Hn)). f_equal. lia.
Qed.

(** X13. A job with an interval that is not 0 and without a repeat
    counter, or with a negative one, is never dropped: however often it
    fires, it goes to its queue each time and is in the schedule store
    again afterwards.  A negative counter is decremented at every
    firing, so it moves away from 0. *)
Theorem unbounded_firing (job : Job) (iv : Z) (k : nat) (w : World) :
  (∀ j, job_id j = job_id job → enqueue_fails j = false) →
  meta_interval (meta job) = Some iv → iv ≠ 0 →
  unbounded (meta_repeat (meta job)) →
  job_hashes (redis w) !! job_id job = Some job →
  ∃ w' job',
    fire_times k (job_id job) w = (Returned tt, w')
    ∧ queue_of (origin job) w'
      = (queue_of (origin job) w ++ replicate k (job_id job))%list
    ∧ ((0 < k)%nat → is_Some (ZSet.zscore (job_id job) (scheduled_jobs (redis w'))))
    ∧ job_hashes (redis w') !! job_id job = Some job'
    ∧ (meta_repeat (meta job) = None → job' = job)
    ∧ (∀ n, meta_repeat (meta job) = Some n →
            meta_repeat (meta job') = Some (n - Z.of_nat k)).
Proof.
  intros Hok Hint Hiv Hun Hst.
  apply (fire_times_unbounded (job_id job) iv k job w Hok Hiv Hst eq_refl Hint Hun).
Qed.

(** ** A dispatch pass *)

Lemma for_each_frame_hashes (jobs : list Job) (m : string) :
  ∀ w, m ∉ job_id <$> jobs →
    job_hashes (redis (snd (for_each enqueue_job jobs w))) !! m
    = job_hashes (redis w) !! m.
Proof.
  induction jobs as [|x jobs IH]; intros w Hm; [reflexivity|].
  rewrite fmap_cons, not_elem_of_cons in Hm. destruct Hm as [Hx Hm].
  pose proof (enqueue_job_frame_hashes x w m Hx) as Hh.
  rewrite for_each_cons_snd.
  destruct (enqueue_job x w) as [[y|e] w1]; simpl in *; [|exact Hh].
  rewrite IH by exact Hm. exact Hh.
Qed.

Lemma enqueue_jobs_run (self : Scheduler) (w w1 : World)
    (items : list (Job * option datetime)) :
  get_jobs_to_queue false w = (Returned items, w1) →
  enqueue_jobs self w
  = match for_each enqueue_job (fst <$> items) w1 with
    | (Returned ys, w2) => (Returned ys, snd (connection_expire (scheduler_ttl self) w2))
    | (Raised e, w2) => (Raised e, w2)
    end.
Proof.
  intros Hg. unfold enqueue_jobs, bind at 1. rewrite Hg. unfold bind at 1.
  destruct (for_each enqueue_job _ _) as [[ys|e] w2]; reflexivity.
Qed.

Lemma enqueue_jobs_snd (self : Scheduler) (w : World) :
  let r := get_jobs_to_queue false w in
  ∃ items w1, r = (Returned items, w1)
    ∧ let w2 := snd (for_each enqueue_job (fst <$> items) w1) in
      scheduled_jobs (redis (snd (enqueue_jobs self w))) = scheduled_jobs (redis w2)
      ∧ queues (redis (snd (enqueue_jobs self w))) = queues (redis w2)
      ∧ job_hashes (redis (snd (enqueue_jobs self w))) = job_hashes (redis w2).
Proof.
  intros r. subst r. rewrite get_jobs_to_queue_run. eexists _, _.
  split; [reflexivity|]. cbn zeta.
  rewrite (enqueue_jobs_run self w _ _ (get_jobs_to_queue_run false w)).
  destruct (for_each enqueue_job _ _) as [[ys|e] w2]; repeat split; reflexivity.
Qed.

(** X14. A dispatch pass leaves alone every job that is not due: for a
    member with no entry scored from 0 to the clock reading, the score,
    the places in the queues and the job record are after
    [enqueue_jobs] what they were before, whether the pass returns or
    raises.  In a store with one entry per member, an entry with a
    negative score or a score after the clock reading is still there. *)
Theorem enqueue_jobs_spares_not_due (self : Scheduler) (w : World) (m : string) :
  let now := Some (UntilEpoch (to_unix (utcnow_at (clock_reads (process w))))) in
  let w' := snd (enqueue_jobs self w) in
  (m ∉ ZSet.member <$> due now w →
     ZSet.zscore m (scheduled_jobs (redis w')) = ZSet.zscore m (scheduled_jobs (redis w))
     ∧ (∀ q, pushes m q w' = pushes m q w)
     ∧ job_hashes (redis w') !! m = job_hashes (redis w) !! m)
  ∧ (ZSet.wf (scheduled_jobs (redis w)) →
     ∀ e, e ∈ scheduled_jobs (redis w) →
          ¬ ZSet.in_range 0 (rationalize_until now) e →
          e ∈ scheduled_jobs (redis w')).
Proof.
  intros now w'.
  assert (Hspare : m ∉ ZSet.member <$> due now w →
     ZSet.zscore m (scheduled_jobs (redis w')) = ZSet.zscore m (scheduled_jobs (redis w))
     ∧ (∀ q, pushes m q w' = pushes m q w)
     ∧ job_hashes (redis w') !! m = job_hashes (redis w) !! m).
  { clear. intros Hm. subst w'.
    destruct (enqueue_jobs_snd self w) as (items & w1 & Hget & Hs & Hq & Hh).
    rewrite get_jobs_to_queue_run in Hget. injection Hget as Hitems Hw1.
    fold now in Hitems, Hw1.
    assert (Hout : m ∉ job_id <$> (fst <$> items)).
    { rewrite <- Hitems, fetched_ids. intros Hin. apply Hm.
      apply list_elem_of_fmap in Hin as (e & -> & He).
      apply list_elem_of_filter in He as [_ He].
      apply list_elem_of_fmap_2, He. }
    destruct (for_each_frame (fst <$> items) m w1 Hout) as (Hz & Hp & _).
    pose proof (for_each_frame_hashes (fst <$> items) m w1 Hout) as Hj.
    split; [|split].
    - rewrite Hs, Hz, <- Hw1. simpl.
      apply ZSetFacts.zscore_filter. intros e _ Heq [Hin _].
      apply Hm. rewrite <- Heq. exact Hin.
    - intros q. unfold pushes, queue_of in *. rewrite Hq.
      rewrite (Hp q), <- Hw1. reflexivity.
    - rewrite Hh, Hj, <- Hw1. reflexivity. }
  split; [exact Hspare|].
  intros Hwf e He Hr.
  assert (Hm : ZSet.member e ∉ ZSet.member <$> due now w).
  { intros Hin. apply list_elem_of_fmap in Hin as (e' & Heq & He').
    unfold due in He'. apply list_elem_of_filter in He' as [Hr' He'].
    assert (Hsame : ZSet.score e' = ZSet.score e).
    { pose proof (ZSetFacts.wf_zscore e _ Hwf He) as H1.
      pose proof (ZSetFacts.wf_zscore e' _ Hwf He') as H2.
      rewrite <- Heq in H2. congruence. }
    apply Hr. unfold ZSet.in_range in *. rewrite <- Hsame. exact Hr'. }
  clear Hspare.
  assert (Hz : ZSet.zscore (ZSet.member e) (scheduled_jobs (redis w'))
               = Some (ZSet.score e)).
  { subst w'.
    destruct (enqueue_jobs_snd self w) as (items & w1 & Hget & Hs & _ & _).
    rewrite get_jobs_to_queue_run in Hget. injection Hget as Hitems Hw1.
    fold now in Hitems, Hw1.
    assert (Hout : ZSet.member e ∉ job_id <$> (fst <$> items)).
    { rewrite <- Hitems, fetched_ids. intros Hin. apply Hm.
      apply list_elem_of_fmap in Hin as (e0 & -> & He0).
      apply list_elem_of_filter in He0 as [_ He0].
      apply list_elem_of_fmap_2, He0. }
    destruct (for_each_frame (fst <$> items) (ZSet.member e) w1 Hout) as (Hz & _ & _).
    rewrite Hs, Hz, <- Hw1. simpl. unfold purged.
    rewrite ZSetFacts.zscore_filter.
    - apply ZSetFacts.wf_zscore; assumption.
    - intros e0 _ Heq [Hin _]. apply Hm. rewrite <- Heq. exact Hin. }
  apply ZSetFacts.zscore_Some_elem in Hz. destruct e; exact Hz.
Qed.

Lemma for_each_dispatched (jobs : list Job) :
  ∀ (w w2 : World) (ys : list Job),
    NoDup (job_id <$> jobs) →
    for_each enqueue_job jobs w = (Returned ys, w2) →
    ys = fired <$> jobs
    ∧ ∀ p, p ∈ jobs →
        pushes (job_id p) (origin p) w2 = S (pushes (job_id p) (origin p) w)
        ∧ job_hashes (redis w2) !! job_id p = Some (fired p)
        ∧ enqueue_fails (fired p) = false.
Proof.
  induction jobs as [|x jobs IH]; intros w w2 ys Hnd Hrun.
  - simpl in Hrun. injection Hrun as <- <-.
    split; [reflexivity|]. intros p Hp. inversion Hp.
  - rewrite fmap_cons, NoDup_cons in Hnd. destruct Hnd as [Hx Hnd].
    pose proof (for_each_frame jobs (job_id x)) as Hfr.
    pose proof (for_each_frame_hashes jobs (job_id x)) as Hfh.
    simpl in Hrun. unfold bind at 1 in Hrun.
    destruct (enqueue_job x w) as [[y|e] wa] eqn:Hhead; [|discriminate].
    unfold bind at 1 in Hrun.
    destruct (for_each enqueue_job jobs wa) as [[ys'|e] wb] eqn:Hrest; [|discriminate].
    unfold ret in Hrun. injection Hrun as <- <-.
    destruct (enqueue_job_returned x y w wa Hhead) as (-> & Hf & Hq & Hh).
    destruct (IH wa wb ys' Hnd Hrest) as (-> & Hall).
    split; [reflexivity|].
    intros p Hp. apply elem_of_cons in Hp as [->|Hp].
    + destruct (Hfr wa Hx) as (_ & Hpush & _).
      specialize (Hfh wa Hx). rewrite Hrest in Hpush, Hfh. simpl in Hpush, Hfh.
      split; [|split; [|exact Hf]].
      * rewrite Hpush. rewrite <- (fired_id x), <- (fired_origin x).
        apply pushes_own, Hq.
      * rewrite Hfh, Hh. simpl. rewrite fired_id, lookup_insert_eq, set_origin_same.
        reflexivity.
    + destruct (Hall p Hp) as (Hpush & Hsaved & Hok).
      assert (Hne : job_id p ≠ job_id x).
      { intros Heq. apply Hx. rewrite <- Heq. apply list_elem_of_fmap_2, Hp. }
      destruct (enqueue_job_frame x w (job_id p) Hne) as (_ & Hpx & _).
      rewrite Hhead in Hpx. simpl in Hpx.
      split; [rewrite Hpush, Hpx; reflexivity|]. split; assumption.
Qed.

(** X15. A dispatch pass in which no dispatch fails and no cron
    expression fails returns the due jobs as the queues took them: every
    due job has been pushed on its queue exactly once and saved with its
    decremented counter, and the expiry of the liveness record, when
    there is one, has been set again to [int(interval) + 10] seconds. *)
Theorem enqueue_jobs_all_dispatched (self : Scheduler) (w w1 w2 : World)
    (items : list (Job * option datetime)) (ys : list Job) :
  ZSet.wf (scheduled_jobs (redis w)) →
  get_jobs_to_queue false w = (Returned items, w1) →
  for_each enqueue_job (fst <$> items) w1 = (Returned ys, w2) →
  let final := snd (enqueue_jobs self w) in
  fst (enqueue_jobs self w) = Returned ys
  ∧ ys = fired <$> (fst <$> items)
  ∧ (∀ p, p ∈ fst <$> items →
       pushes (job_id p) (origin p) final = S (pushes (job_id p) (origin p) w)
       ∧ job_hashes (redis final) !! job_id p = Some (fired p))
  ∧ scheduler_hash (redis final)
    = (λ h, mkLiveness (fields h) (Some (py_int (_interval self) + 10)))
        <$> scheduler_hash (redis w).
Proof.
  intros Hwf Hget Hrun final. subst final.
  rewrite (enqueue_jobs_run self w w1 items Hget), Hrun. cbn [fst snd].
  pose proof (get_jobs_to_queue_run false w) as Hg. cbn zeta in Hg.
  rewrite Hget in Hg. injection Hg as Hitems Hw1.
  assert (Hnd : NoDup (job_id <$> (fst <$> items))).
  { rewrite Hitems, fetched_ids. unfold due.
    apply ZSetFacts.wf_filter, ZSetFacts.wf_filter, Hwf. }
  destruct (for_each_dispatched _ w1 w2 ys Hnd Hrun) as (Hys & Hall).
  split; [reflexivity|]. split; [exact Hys|]. split.
  - intros p Hp. destruct (Hall p Hp) as (Hpush & Hsaved & _).
    split.
    + unfold pushes, queue_of in *. simpl. rewrite Hpush, Hw1. reflexivity.
    + simpl. exact Hsaved.
  - pose proof (for_each_keeps_liveness (fst <$> items) w1) as Hl.
    rewrite Hrun in Hl. simpl in Hl. simpl. rewrite Hl, Hw1. simpl.
    destruct (scheduler_hash (redis w)); reflexivity.
Qed.

End FiringFacts.

(** ** The loop of [run] *)

Section RunFacts.

Context {U : Utils} {E : Env}.

Lemma enqueue_job_keeps_lock (job : Job) (w : World) :
  scheduler_lock (redis (snd (enqueue_job job w))) = scheduler_lock (redis w)
  ∧ _lock_acquired (process (snd (enqueue_job job w))) = _lock_acquired (process w).
Proof.
  unfold enqueue_job, bind, get_queue_for_job, ret, Queue_enqueue_job.
  fold (fired job).
  destruct (enqueue_fails (fired job)); [split; reflexivity|]. simpl.
  destruct (truthy_int (meta_interval (meta job))).
  - destruct (_ && _); simpl; split; reflexivity.
  - destruct (truthy_str (meta_cron_string (meta job))); simpl.
    + destruct (_ && _); simpl; [split; reflexivity|].
      destruct (get_next_scheduled_time _ _); simpl; split; reflexivity.
    + split; reflexivity.
Qed.

Lemma for_each_keeps_lock (jobs : list Job) :
  ∀ w, scheduler_lock (redis (snd (for_each enqueue_job jobs w)))
       = scheduler_lock (redis w)
       ∧ _lock_acquired (process (snd (for_each enqueue_job jobs w)))
         = _lock_acquired (process w).
Proof.
  induction jobs as [|x jobs IH]; intros w; [split; reflexivity|].
  rewrite for_each_cons_snd.
  destruct (enqueue_job_keeps_lock x w) as [Hl Hp].
  destruct (enqueue_job x w) as [[y|e] w1]; simpl in *; [|split; assumption].
  destruct (IH w1) as [Hl1 Hp1]. split; congruence.
Qed.

Lemma enqueue_jobs_keeps_lock (self : Scheduler) (w : World) :
  scheduler_lock (redis (snd (enqueue_jobs self w))) = scheduler_lock (redis w)
  ∧ _lock_acquired (process (snd (enqueue_jobs self w))) = _lock_acquired (process w)
  ∧ (is_Some (scheduler_hash (redis w)) →
     is_Some (scheduler_hash (redis (snd (enqueue_jobs self w))))).
Proof.
  rewrite (enqueue_jobs_run self w _ _ (get_jobs_to_queue_run false w)).
  set (w1 := mkWorld _ _). set (items := fetched _ _).
  destruct (for_each_keeps_lock (fst <$> items) w1) as [Hl Hp].
  pose proof (for_each_keeps_liveness (fst <$> items) w1) as Hh.
  destruct (for_each enqueue_job (fst <$> items) w1) as [[ys|e] w2];
    simpl in *; rewrite ?Hl, ?Hp, ?Hh; (split; [reflexivity|split; [reflexivity|]]).
  - intros [h ->]. eexists. reflexivity.
  - tauto.
Qed.

Lemma run_iteration_free (self : Scheduler) (burst : bool) (w : World) :
  scheduler_lock (redis w) = None →
  let n := clock_reads (process w) in
  let wl := mkWorld (with_scheduler_lock
                       (λ _, Some (time_at (S n), scheduler_ttl self)) (redis w))
                    (mkProcess true (S (S n)) (ids_drawn (process w))) in
  run_iteration self burst w
  = match enqueue_jobs self wl with
    | (Raised e, w2) => (Raised e, w2)
    | (Returned _, w2) =>
        if burst then (Returned Break, w2)
        else (Returned (Sleep (_interval self
                               - (time_at (clock_reads (process w2)) - time_at n))%Q),
              with_process tick w2)
    end.
Proof.
  intros Hl n wl. unfold run_iteration, bind at 1, time_time. unfold bind at 1.
  rewrite acquire_lock_free by exact Hl. cbn [redis process with_process tick
    clock_reads ids_drawn]. fold n wl.
  unfold bind at 1, bind at 1.
  destruct (enqueue_jobs self wl) as [[ys|e] w2]; [|reflexivity].
  unfold ret. destruct burst; reflexivity.
Qed.

Lemma run_iteration_taken (self : Scheduler) (burst : bool) (w : World) :
  is_Some (scheduler_lock (redis w)) →
  let n := clock_reads (process w) in
  run_iteration self burst w
  = (Returned (Sleep (_interval self - (time_at (S (S n)) - time_at n))%Q),
     mkWorld (redis w) (mkProcess false (S (S (S n))) (ids_drawn (process w)))).
Proof.
  intros Hl n. unfold run_iteration, bind at 1, time_time. unfold bind at 1.
  rewrite acquire_lock_taken by exact Hl. reflexivity.
Qed.

Lemma finally_held (wp : World) :
  _lock_acquired (process wp) = true →
  (remove_lock >> register_death) wp
  = (Returned tt,
     mkWorld (with_scheduler_hash (dead (time_at (clock_reads (process wp))))
                (with_scheduler_lock (λ _, None) (redis wp)))
             (tick (process wp))).
Proof.
  intros Hh. unfold bind. rewrite (remove_lock_held wp Hh).
  rewrite register_death_run. reflexivity.
Qed.

Lemma finally_not_held (wp : World) :
  _lock_acquired (process wp) = false →
  (remove_lock >> register_death) wp
  = (Returned tt,
     mkWorld (with_scheduler_hash (dead (time_at (clock_reads (process wp))))
                (redis wp))
             (tick (process wp))).
Proof.
  intros Hh. unfold bind. rewrite (remove_lock_not_held wp Hh).
  rewrite register_death_run. reflexivity.
Qed.

Lemma dead_not_live (now : Q) (r : Redis) (p : Process) :
  ¬ live (mkWorld (with_scheduler_hash (dead now) r) p).
Proof.
  intros (h & Hh & Hd). simpl in Hh. unfold dead in Hh.
  injection Hh as <-. simpl in Hd. rewrite lookup_insert_eq in Hd. discriminate.
Qed.

Lemma run_burst_run (self : Scheduler) (fuel : nat) (w : World) :
  ¬ live w →
  scheduler_lock (redis w) = None →
  run (S fuel) self true w
  = let pass := enqueue_jobs self (started self w) in
    (left_after (fst pass),
     mkWorld (with_scheduler_hash
                (dead (time_at (clock_reads (process (snd pass)))))
                (with_scheduler_lock (λ _, None) (redis (snd pass))))
             (tick (process (snd pass)))).
Proof.
  intros Hn Hl. cbn zeta.
  unfold run, bind at 1. rewrite register_birth_not_live by exact Hn.
  cbn [run_loop]. unfold bind at 1.
  rewrite run_iteration_free by exact Hl.
  cbn [redis process born tick clock_reads ids_drawn]. fold (started self w).
  destruct (enqueue_jobs_keeps_lock self (started self w)) as (_ & Hheld & _).
  simpl in Hheld.
  destruct (enqueue_jobs self (started self w)) as [[ys|e] wp];
    cbn [fst snd left_after] in *; unfold ret, try_finally;
    rewrite (finally_held wp Hheld); reflexivity.
Qed.

(** X16. [run] in burst mode, started with no live scheduler and the
    lock free, makes one dispatch pass and leaves its loop; whether the
    pass returns or raises, the [finally] clause has then deleted the
    lock and registered the death: the liveness record has a [death]
    field and expires after 60 seconds.  The schedule store and the
    queues are as the pass left them. *)
Theorem run_burst_once (self : Scheduler) (fuel : nat) (w : World) :
  ¬ live w →
  scheduler_lock (redis w) = None →
  let pass := enqueue_jobs self (started self w) in
  let out := run (S fuel) self true w in
  fst out = left_after (fst pass)
  ∧ scheduled_jobs (redis (snd out)) = scheduled_jobs (redis (snd pass))
  ∧ queues (redis (snd out)) = queues (redis (snd pass))
  ∧ scheduler_lock (redis (snd out)) = None
  ∧ ¬ live (snd out)
  ∧ expiry <$> scheduler_hash (redis (snd out)) = Some (Some 60).
Proof.
  intros Hn Hl pass out. subst pass out.
  rewrite (run_burst_run self fuel w Hn Hl). cbn [fst snd].
  repeat (split; [reflexivity|]). split; [apply dead_not_live|reflexivity].
Qed.

Lemma run_one_turn_waiting (self : Scheduler) (burst : bool) (w : World) :
  ¬ live w →
  is_Some (scheduler_lock (redis w)) →
  let n := clock_reads (process w) in
  let d := (_interval self - (time_at (S (S (S n))) - time_at (S n)))%Q in
  let waiting :=
    mkWorld (born self (time_at n) (redis w))
            (mkProcess false (S (S (S (S n)))) (ids_drawn (process w))) in
  run 1 self burst w
  = if Qlt_le_dec d 0
    then (Raised (ValueError "sleep length must be non-negative"),
          mkWorld (with_scheduler_hash
                     (dead (time_at (S (S (S (S n)))))) (redis waiting))
                  (tick (process waiting)))
    else (Returned Running, waiting).
Proof.
  intros Hn Hl n d waiting.
  unfold run, bind at 1. rewrite register_birth_not_live by exact Hn.
  cbn [run_loop]. unfold bind at 1.
  rewrite run_iteration_taken by exact Hl.
  cbn [redis process born tick clock_reads ids_drawn]. fold n d waiting.
  unfold bind at 1, time_sleep.
  destruct (Qlt_le_dec d 0); [|reflexivity].
  unfold raise, try_finally.
  rewrite (finally_not_held waiting eq_refl). reflexivity.
Qed.

(** X17. While another scheduler holds the lock, a turn of the loop of
    [run] makes no dispatch pass and goes on to [time.sleep], in burst
    mode too; the schedule store, the queues and the lock are left as
    they are.  This holds also when the sleep raises and the [finally]
    clause runs: [remove_lock] deletes no lock this process has not
    acquired. *)
Theorem run_waits_for_lock (self : Scheduler) (burst : bool) (w : World) :
  ¬ live w →
  is_Some (scheduler_lock (redis w)) →
  let out := run 1 self burst w in
  fst out ≠ Returned Left
  ∧ scheduled_jobs (redis (snd out)) = scheduled_jobs (redis w)
  ∧ queues (redis (snd out)) = queues (redis w)
  ∧ job_hashes (redis (snd out)) = job_hashes (redis w)
  ∧ scheduler_lock (redis (snd out)) = scheduler_lock (redis w)
  ∧ _lock_acquired (process (snd out)) = false.
Proof.
  intros Hn Hl out. subst out.
  rewrite (run_one_turn_waiting self burst w Hn Hl). cbn zeta.
  destruct (Qlt_le_dec _ 0); cbn [fst snd];
    (split; [discriminate|]); repeat (split; [reflexivity|]); reflexivity.
Qed.

(** X18. [run] started while a scheduler is live raises the error of
    [register_birth] before its [try] block: the [finally] clause does
    not run, so neither the lock nor the liveness record of the live
    scheduler is touched, and no death is registered in its name. *)
Theorem run_refused (fuel : nat) (self : Scheduler) (burst : bool) (w : World) :
  live w → run fuel self burst w = (Raised already_running, w).
Proof.
  intros Hlive. unfold run, bind. rewrite register_birth_live by exact Hlive.
  reflexivity.
Qed.

Lemma run_iteration_no_break (self : Scheduler) (w : World) :
  fst (run_iteration self false w) ≠ Returned Break.
Proof.
  destruct (scheduler_lock (redis w)) as [l|] eqn:Hl.
  - rewrite run_iteration_taken by (rewrite Hl; eexists; reflexivity).
    discriminate.
  - rewrite run_iteration_free by exact Hl. cbn zeta.
    destruct (enqueue_jobs self _) as [[ys|e] w2]; discriminate.
Qed.

Lemma run_loop_no_break (self : Scheduler) (fuel : nat) :
  ∀ w, fst (run_loop fuel self false w) ≠ Returned Left.
Proof.
  induction fuel as [|fuel IH]; intros w; [discriminate|].
  cbn [run_loop]. unfold bind at 1.
  pose proof (run_iteration_no_break self w) as Hnb.
  destruct (run_iteration self false w) as [[[|d]|e] w1]; cbn [fst] in *;
    [congruence| |discriminate].
  unfold bind, time_sleep. destruct (Qlt_le_dec d 0); [discriminate|].
  apply IH.
Qed.

(** X19. Without burst mode the loop of [run] has no way out but an
    exception: [break] is reached only under [if burst], so whatever
    the number of turns, [run] does not return from its loop. *)
Theorem run_leaves_only_by_exception (self : Scheduler) (fuel : nat) (w : World) :
  fst (run_loop fuel self false w) ≠ Returned Left
  ∧ fst (run fuel self false w) ≠ Returned Left.
Proof.
  split; [apply run_loop_no_break|].
  unfold run, bind at 1.
  destruct (register_birth self w) as [[[]|e] w1]; [|discriminate].
  pose proof (run_loop_no_break self fuel w1) as Hnb.
  destruct (run_loop fuel self false w1) as [[[|]|e] w2]; cbn [fst] in *;
    [congruence|discriminate|].
  unfold try_finally. destruct ((remove_lock >> register_death) w2) as [[[]|e'] w3];
    discriminate.
Qed.

End RunFacts.

(** ** [change_execution_time] when nobody interferes *)

Section ChangeFacts.

Context {U : Utils} {E : Env}.

Lemma change_execution_time_quiet (r : round) (rest : list round) (job : Job)
    (date_time : datetime) (w : World) :
  after_watch r = [] → after_check r = [] →
  watch_error (scheduled_jobs (redis w)) [] = false →
  ZSet.zscore (job_id job) (scheduled_jobs (redis w)) ≠ None →
  change_execution_time (r :: rest) job date_time w
  = (Returned (Some tt),
     set_scheduled_jobs
       (ZSet.zadd (to_unix date_time) (job_id job) (scheduled_jobs (redis w))) w).
Proof.
  intros Hw Hc Hquiet Hin. rewrite change_execution_time_step. cbn zeta.
  rewrite Hw, Hc. simpl. rewrite Hquiet.
  rewrite bool_decide_eq_false_2 by exact Hin. reflexivity.
Qed.

(** X21. [change_execution_time] on a scheduled job, with no other
    client writing between its WATCH and its ZADD and a store that
    raises no [WatchError] then, returns at the first turn of its loop:
    the job is in the schedule store once, at the new time, and every
    other entry, the job records, the queues and the process are as
    they were. *)
Theorem change_execution_time_moves (r : round) (rest : list round) (job : Job)
    (date_time : datetime) (w : World) :
  after_watch r = [] → after_check r = [] →
  watch_error (scheduled_jobs (redis w)) [] = false →
  ZSet.zscore (job_id job) (scheduled_jobs (redis w)) ≠ None →
  let out := change_execution_time (r :: rest) job date_time w in
  fst out = Returned (Some tt)
  ∧ ZSet.zscore (job_id job) (scheduled_jobs (redis (snd out)))
    = Some (to_unix date_time)
  ∧ ZSet.occurrences (job_id job) (scheduled_jobs (redis (snd out))) = 1%nat
  ∧ (∀ m, m ≠ job_id job →
       ZSet.zscore m (scheduled_jobs (redis (snd out)))
       = ZSet.zscore m (scheduled_jobs (redis w))
       ∧ ZSet.occurrences m (scheduled_jobs (redis (snd out)))
         = ZSet.occurrences m (scheduled_jobs (redis w)))
  ∧ job_hashes (redis (snd out)) = job_hashes (redis w)
  ∧ queues (redis (snd out)) = queues (redis w)
  ∧ process (snd out) = process w.
Proof.
  intros Hw Hc Hquiet Hin out. subst out.
  rewrite (change_execution_time_quiet r rest job date_time w Hw Hc Hquiet Hin).
  cbn [fst snd]. simpl.
  split; [reflexivity|].
  split; [apply ZSetFacts.zscore_zadd_eq|].
  split; [apply ZSetFacts.occurrences_zadd_eq|].
  split; [|repeat split].
  intros m Hm. split.
  - apply ZSetFacts.zscore_zadd_ne. congruence.
  - apply ZSetFacts.occurrences_zadd_ne. congruence.
Qed.

End ChangeFacts.

(** ** Further runs on the concrete environment *)

Lemma liveness_cycle_witness :
  live (snd (register_birth (E:=Sample.env (λ _, 100) (λ _, false))
               Sample.scheduler Sample.empty_world)).
Proof.
  destruct (liveness_cycle (E:=Sample.env (λ _, 100) (λ _, false))
              Sample.scheduler Sample.empty_world) as (Hlive & _).
  - intros (h & Hh & _). discriminate Hh.
  - exact Hlive.
Defined.

Lemma schedule_accepted_witness :
  ∃ job w',
    schedule (E:=Sample.env (λ _, 100) (λ _, false)) Sample.scheduler 500
      "app.task" None None (Some 10) (Some 2) None None None (Some "a") None None
      Sample.empty_world
    = (Returned job, w')
    ∧ meta job = mkMeta (Some 10) (Some 2) None.
Proof.
  destruct (schedule_accepted (E:=Sample.env (λ _, 100) (λ _, false))
              Sample.scheduler 500 "app.task" None None (Some 10) (Some 2)
              None None None (Some "a") None None Sample.empty_world)
    as (job & w' & Hrun & _ & _ & Hmeta & _).
  - right. discriminate.
  - exists job, w'. split; [exact Hrun|exact Hmeta].
Defined.

Lemma cron_firing_witness :
  ZSet.zscore "c"
    (scheduled_jobs
       (redis (snd (enqueue_job (E:=Sample.env (λ _, 100) (λ _, false))
                      MoreSample.every_minute
                      (Sample.world_of [("c", 50)] [MoreSample.every_minute])))))
  = Some 120.
Proof.
  destruct (cron_firing (E:=Sample.env (λ _, 100) (λ _, false))
              MoreSample.every_minute "* * * * *"
              (Sample.world_of [("c", 50)] [MoreSample.every_minute])
              eq_refl eq_refl eq_refl ltac:(discriminate)
              ltac:(vm_compute; discriminate)) as [Hnext _].
  destruct (Hnext 120 eq_refl) as [_ Hz]. exact Hz.
Defined.

Lemma one_shot_firing_witness :
  fst (contains (ByJob Sample.job_a)
         (snd (enqueue_job (E:=Sample.env (λ _, 100) (λ _, false))
                 Sample.job_a Sample.two_due)))
  = Returned false.
Proof.
  destruct (one_shot_firing (E:=Sample.env (λ _, 100) (λ _, false))
              Sample.job_a Sample.two_due eq_refl eq_refl eq_refl)
    as (_ & Hgone & _).
  exact Hgone.
Defined.

Lemma unbounded_firing_witness :
  ∃ w', fire_times (E:=Sample.env (λ _, 100) (λ _, false)) 3 "e"
          (Sample.world_of [("e", 50)] [MoreSample.every_ten])
        = (Returned tt, w')
        ∧ queue_of "default" w' = ["e"; "e"; "e"].
Proof.
  destruct (unbounded_firing (E:=Sample.env (λ _, 100) (λ _, false))
              MoreSample.every_ten 10 3
              (Sample.world_of [("e", 50)] [MoreSample.every_ten])
              (λ _ _, eq_refl) eq_refl ltac:(lia) I eq_refl)
    as (w' & job' & Hrun & Hq & _).
  exists w'. split; [exact Hrun|exact Hq].
Defined.

Lemma enqueue_jobs_all_dispatched_witness :
  fst (enqueue_jobs (E:=Sample.env (λ _, 100) (λ _, false))
         Sample.scheduler Sample.two_due)
  = Returned [Sample.job_a; Sample.job_b].
Proof.
  set (env := Sample.env (λ _, 100) (λ _, false)).
  set (w1 := snd (get_jobs_to_queue (E:=env) false Sample.two_due)).
  set (w2 := snd (for_each (enqueue_job (E:=env))
                    [Sample.job_a; Sample.job_b] w1)).
  assert (Hwf : ZSet.wf (scheduled_jobs (redis Sample.two_due))).
  { apply (bool_decide_unpack _). vm_compute. exact I. }
  assert (Hget : get_jobs_to_queue (E:=env) false Sample.two_due
                 = (Returned [(Sample.job_a, None); (Sample.job_b, None)], w1)).
  { vm_compute. reflexivity. }
  assert (Hrun : for_each (enqueue_job (E:=env))
                   (fst <$> [(Sample.job_a, None : option (@datetime Sample.utils));
                             (Sample.job_b, None)]) w1
                 = (Returned [Sample.job_a; Sample.job_b], w2)).
  { vm_compute. reflexivity. }
  destruct (enqueue_jobs_all_dispatched (E:=env) Sample.scheduler Sample.two_due
              w1 w2 _ _ Hwf Hget Hrun) as (Hret & _).
  exact Hret.
Defined.

Lemma run_burst_once_witness :
  scheduler_lock
    (redis (snd (run (E:=Sample.env (λ _, 100) (λ _, false)) 1 Sample.scheduler
                   true Sample.two_due)))
  = None.
Proof.
  destruct (run_burst_once (E:=Sample.env (λ _, 100) (λ _, false))
              Sample.scheduler 0 Sample.two_due) as (_ & _ & _ & Hlock & _).
  - intros (h & Hh & _). discriminate Hh.
  - reflexivity.
  - exact Hlock.
Defined.

Lemma run_waits_for_lock_witness :
  scheduled_jobs
    (redis (snd (run (E:=Sample.env (λ _, 100) (λ _, false)) 1 Sample.scheduler
                   true MoreSample.lock_held)))
  = [("a", 10)].
Proof.
  destruct (run_waits_for_lock (E:=Sample.env (λ _, 100) (λ _, false))
              Sample.scheduler true MoreSample.lock_held)
    as (_ & Hsame & _).
  - intros (h & Hh & _). discriminate Hh.
  - eexists. reflexivity.
  - exact Hsame.
Defined.

Lemma run_refused_witness :
  run (E:=Sample.env (λ _, 100) (λ _, false)) 5 Sample.scheduler false
    MoreSample.one_live
  = (Raised already_running, MoreSample.one_live).
Proof.
  apply (run_refused (E:=Sample.env (λ _, 100) (λ _, false))).
  eexists. split; [reflexivity|]. vm_compute. reflexivity.
Defined.

Lemma change_execution_time_moves_witness :
  ZSet.zscore "a"
    (scheduled_jobs
       (redis (snd (change_execution_time (E:=Sample.env (λ _, 100) (λ _, false))
                      [MoreSample.quiet] Sample.job_a 500 Sample.two_due))))
  = Some 500.
Proof.
  destruct (change_execution_time_moves (E:=Sample.env (λ _, 100) (λ _, false))
              MoreSample.quiet [] Sample.job_a 500 Sample.two_due
              eq_refl eq_refl eq_refl ltac:(vm_compute; discriminate))
    as (_ & Hz & _).
  exact Hz.
Defined.
